(** * Banded weighted DTW cost kernel ([weighted_euclidean], oc_wdtw.cpp)

    A shallow embedding of the kernel and the properties of its
    specification.

    - [int] values are integers of [Z]; the two expressions that can leave
      the 32-bit range, [i - window] and [i + window], are reduced with the
      two's-complement wrap-around [Int32.wrap], the result compiled code
      produces where C++ leaves signed overflow undefined.  The counters
      [i] and [j] stay below [m] and never wrap.
    - [float] arithmetic is an interface ([FloatOps]); the kernel is written
      once over it and instantiated with IEEE-754 binary32 ([Binary32]),
      built on the parameterised [SpecFloat] of the standard library.
      [sqrt] is the single-precision square root and Eigen's [sum()] adds
      the coefficients in index order.
    - The raw buffers are lists; an [Eigen::Map] over a buffer is a pair of
      extents, and every coefficient access checks its row and its column
      against them and fails ([None]) outside. *)

From Stdlib Require Import ZArith Bool Lia.
From Stdlib Require Import Floats.SpecFloat.
From stdpp Require Import base tactics option list list_numbers sorting.

Local Open Scope Z_scope.

(** ** Machine integers *)

Module Int32.
Definition min_int : Z := -2147483648.
Definition max_int : Z := 2147483647.

Definition in_range (z : Z) : Prop := min_int ≤ z ≤ max_int.

(** Two's-complement reduction to 32 bits. *)
Definition wrap (z : Z) : Z := (z + 2147483648) `mod` 4294967296 - 2147483648.

Definition add (a b : Z) : Z := wrap (a + b).
Definition sub (a b : Z) : Z := wrap (a - b).
End Int32.

(** ** Floating-point interface *)

Class FloatOps (F : Type) := {
  fzero : F;
  fadd : F → F → F;
  fsub : F → F → F;
  fmul : F → F → F;
  fsqrt : F → F;
  fltb : F → F → bool
}.

Section Kernel.
Context {F : Type} `{FloatOps F}.

(** [std::min(a, b)] is [(b < a) ? b : a]. *)
Definition fmin (a b : F) : F := if fltb b a then b else a.

(** Eigen's [sum()] reduction: 0 on an empty array, otherwise the first
    coefficient accumulated with the others from left to right. *)
Definition array_sum (l : list F) : F :=
  match l with
  | [] => fzero
  | x :: xs => foldl fadd x xs
  end.

(** *** Row-major views over flat buffers *)

Definition offset (cols i j : Z) : nat := Z.to_nat (i * cols + j).

Definition in_extent (rows cols i j : Z) : bool :=
  (0 <=? i) && (i <? rows) && (0 <=? j) && (j <? cols).

(** [M(i, j)] read. *)
Definition coeff (buf : list F) (rows cols i j : Z) : option F :=
  if in_extent rows cols i j then buf !! offset cols i j else None.

(** [M(i, j) = v]. *)
Definition coeff_set (buf : list F) (rows cols i j : Z) (v : F)
  : option (list F) :=
  if in_extent rows cols i j && bool_decide (offset cols i j < length buf)%nat
  then Some (<[offset cols i j := v]> buf)
  else None.

(** [M.row(i)], copied out coefficient by coefficient. *)
Definition row (buf : list F) (rows cols i : Z) : option (list F) :=
  mapM (λ k, coeff buf rows cols i k) (seqZ 0 cols).

(** *** Loops *)

(** The body run on every element of a list, threading the state and
    stopping at the first failure. *)
Fixpoint for_each {A S : Type} (body : A → S → option S) (l : list A) (s : S)
  : option S :=
  match l with
  | [] => Some s
  | a :: l' => s' ← body a s; for_each body l' s'
  end.

(** [for (int k = lo; k < hi; ++k) body]: the bounds do not change while
    the loop runs and the body neither breaks nor assigns [k]. *)
Definition for_range {S : Type} (lo hi : Z) (body : Z → S → option S)
  : S → option S :=
  for_each body (seqZ lo (hi - lo)).

(** *** The kernel *)

Section Body.
Variables (x1 x2 w : list F) (m n window : Z).

(** Lines 25-31: [cost = wi * wj * sqrt(((xi - xj) * (xi - xj)).sum())]. *)
Definition local_cost (i j : Z) : option F :=
  xi ← row x1 m n i;
  xj ← row x2 m n j;
  wi ← coeff w m 1 i 0;
  wj ← coeff w m 1 j 0;
  Some (fmul (fmul wi wj)
          (fsqrt (array_sum
                    (zip_with (λ a b, fmul (fsub a b) (fsub a b)) xi xj)))).

(** Lines 25-33: one iteration of the inner loop. *)
Definition cell_update (i j : Z) (costs : list F) : option (list F) :=
  cost ← local_cost i j;
  left ← coeff costs m m i (j - 1);
  up ← coeff costs m m (i - 1) j;
  diag ← coeff costs m m (i - 1) (j - 1);
  coeff_set costs m m i j (fadd cost (fmin left (fmin up diag))).

(** Bounds of the inner loop (line 24). *)
Definition band_lo (i : Z) : Z := Z.max 1 (Int32.sub i window).
Definition band_hi (i : Z) : Z := Z.min m (Int32.add i window).

Definition weighted_euclidean (costs_out : list F) : option (list F) :=
  for_range 1 m
    (λ i, for_range (band_lo i) (band_hi i) (λ j, cell_update i j))
    costs_out.
End Body.
End Kernel.

(** ** IEEE-754 binary32 *)

Module Binary32.
Definition prec : Z := 24.
Definition emax : Z := 128.

Definition float : Type := spec_float.

(** The float nearest to an integer. *)
Definition of_Z (z : Z) : float := binary_normalize prec emax z 0 false.

#[export] Instance ops : FloatOps float := {|
  fzero := S754_zero false;
  fadd := SFadd prec emax;
  fsub := SFsub prec emax;
  fmul := SFmul prec emax;
  fsqrt := SFsqrt prec emax;
  fltb := SFltb
|}.

Definition is_nan (x : float) : bool :=
  match x with S754_nan => true | _ => false end.

Definition is_finite (x : float) : bool :=
  match x with S754_zero _ | S754_finite _ _ _ => true | _ => false end.

(** [0 <= x]: false on NaN. *)
Definition nonneg (x : float) : bool := SFleb (S754_zero false) x.

Definition finite_nonneg (x : float) : bool := is_finite x && nonneg x.

(** [!(x < 0)]: true on NaN. *)
Definition not_negative (x : float) : bool := negb (SFltb x (S754_zero false)).
End Binary32.

(** ** Vocabulary of the specification *)

Section Description.
Context {F : Type} `{FloatOps F}.

(** [M(i, j)] as a total function, for stating results. *)
Definition entry (buf : list F) (cols i j : Z) : F :=
  default fzero (buf !! offset cols i j).

(** The local cost in the words of the specification:
    [W[i] * W[j] * sqrt (Σ_k (X1[i,k] − X2[j,k])^2)]. *)
Definition spec_local_cost (x1 x2 w : list F) (n i j : Z) : F :=
  fmul (fmul (entry w 1 i 0) (entry w 1 j 0))
    (fsqrt (array_sum
              ((λ k, fmul (fsub (entry x1 n i k) (entry x2 n j k))
                          (fsub (entry x1 n i k) (entry x2 n j k)))
                 <$> seqZ 0 n))).

(** The cells the two loops visit. *)
Definition evaluated (m window i j : Z) : bool :=
  (1 <=? i) && (i <? m) && (band_lo window i <=? j) && (j <? band_hi m window i).

(** The traversal, in order. *)
Definition cells (m window : Z) : list (Z * Z) :=
  i ← seqZ 1 (m - 1);
  pair i <$> seqZ (band_lo window i) (band_hi m window i - band_lo window i).

(** Row-major order on cells. *)
Definition cell_lt (a b : Z * Z) : Prop :=
  a.1 < b.1 ∨ (a.1 = b.1 ∧ a.2 < b.2).

(** The declared extents of the buffers (section 3 of the specification). *)
Record well_formed (x1 x2 w costs : list F) (m n : Z) : Prop := {
  wf_m : 1 ≤ m ≤ Int32.max_int;
  wf_n : 0 ≤ n ≤ Int32.max_int;
  wf_x1 : length x1 = Z.to_nat (m * n);
  wf_x2 : length x2 = Z.to_nat (m * n);
  wf_w : length w = Z.to_nat m;
  wf_costs : length costs = Z.to_nat (m * m)
}.


(** A cell outside the traversal that some evaluated cell reads as a
    predecessor. *)
Definition boundary_read (m window a b : Z) : bool :=
  negb (evaluated m window a b) &&
  (evaluated m window a (b + 1) || evaluated m window (a + 1) b
   || evaluated m window (a + 1) (b + 1)).

(** The dependency chain of cell [(i, j)] under window [w2] is the cell
    itself, if it is evaluated, and the chains of its three predecessors.
    [chain_covered w1 w2 m i j] holds when every cell of that chain was
    also evaluated under [w1]: the wider band brings no dependency on a
    cell that was left to the caller under the narrower one.  A chain from
    [(i, j)] has at most [i + j] links. *)
Fixpoint chain_covered_upto (links : nat) (w1 w2 m i j : Z) : bool :=
  if evaluated m w2 i j then
    evaluated m w1 i j &&
    match links with
    | O => false
    | S k =>
        chain_covered_upto k w1 w2 m i (j - 1) &&
        chain_covered_upto k w1 w2 m (i - 1) j &&
        chain_covered_upto k w1 w2 m (i - 1) (j - 1)
    end
  else true.

Definition chain_covered (w1 w2 m i j : Z) : bool :=
  chain_covered_upto (Z.to_nat (i + j)) w1 w2 m i j.
End Description.

(** ** Sentences of the specification that the kernel does not satisfy

    Each is written down as it is worded, to be refuted on an input. *)

Section Statements.
Context {F : Type} `{FloatOps F}.

(** "writes only cells with i >= 1, j >= 1 and |i - j| < window". *)
Definition symmetric_band_frame (x1 x2 w costs : list F) (m n window : Z) : Prop :=
  ∀ costs', weighted_euclidean x1 x2 w m n window costs = Some costs' →
  ∀ i j, 0 ≤ i < m → 0 ≤ j < m →
    ¬ (1 ≤ i ∧ 1 ≤ j ∧ Z.abs (i - j) < window) →
    entry costs' m i j = entry costs m i j.

(** "the local cost at cell (i, j) equals the local cost at the same cell
    with the inputs swapped". *)
Definition swap_at_same_cell (x1 x2 w : list F) (m n window : Z) : Prop :=
  ∀ i j, evaluated m window i j = true →
    local_cost x1 x2 w m n i j = local_cost x2 x1 w m n i j.

(** "for window <= 0 the inner loop range is empty for every i". *)
Definition empty_band (m window : Z) : Prop :=
  ∀ i, 1 ≤ i < m → band_hi m window i ≤ band_lo window i.
End Statements.

Import Binary32.

(** "boundary values finite and non-negative give evaluated cells finite and
    non-negative". *)
Definition shape_property (x1 x2 w costs : list float) (m n window : Z) : Prop :=
  (∀ a b, boundary_read m window a b = true →
     finite_nonneg (entry costs m a b) = true) →
  ∀ costs', weighted_euclidean x1 x2 w m n window costs = Some costs' →
  ∀ i j, evaluated m window i j = true →
    finite_nonneg (entry costs' m i j) = true.

(** "for w1 <= w2, C_w2(i, j) <= C_w1(i, j) on the cells evaluated under w1
    whose w2 dependency chain stays in the w1 band". *)
Definition band_monotone (x1 x2 w costs : list float) (m n w1 w2 : Z) : Prop :=
  w1 ≤ w2 →
  ∀ c1 c2,
    weighted_euclidean x1 x2 w m n w1 costs = Some c1 →
    weighted_euclidean x1 x2 w m n w2 costs = Some c2 →
    ∀ i j, evaluated m w1 i j = true → chain_covered w1 w2 m i j = true →
      SFleb (entry c2 m i j) (entry c1 m i j) = true.

(** ** Inputs used below *)

Module Inputs.
(** The scenario of the specification: m = 3, n = 1, X1 = X2 = [0, 1, 2],
    W = [1, 1, 1], C(0,0) = 0, the rest of row 0 and column 0 at 1e9; the
    interior holds whatever the caller left there. *)
Definition seq012 : list float := of_Z <$> [0; 1; 2].
Definition ones (k : nat) : list float := replicate k (of_Z 1).
Definition sentinel : float := of_Z 1000000000.
Definition scenario_costs (c11 c12 c21 c22 : float) : list float :=
  [ of_Z 0;  sentinel; sentinel;
    sentinel; c11;      c12;
    sentinel; c21;      c22 ].

Definition zeros (k : nat) : list float := replicate k (of_Z 0).

(** A weight of -1 at index 1. *)
Definition signed_weights : list float := of_Z <$> [1; -1; 1].
Definition step_at_2 : list float := of_Z <$> [0; 0; 1].

(** Finite values whose difference overflows. *)
Definition huge : list float := [of_Z 0; of_Z (2 ^ 127)].
Definition minus_huge : list float := [of_Z 0; of_Z (- 2 ^ 127)].
Definition weights_1_0 : list float := of_Z <$> [1; 0].

Definition marked_costs : list float := of_Z <$> [0; 0; 0; 7].
Definition sevens : list float := scenario_costs (of_Z 7) (of_Z 7) (of_Z 7) (of_Z 7).

(** A matrix dimension above 2^30 and a negative window for which
    [i - window] leaves the int range in the last row. *)
Definition far_m : Z := 1073741826.
Definition far_window : Z := -1073741823.
Definition far_row : Z := 1073741825.


(** A negative value left by the caller in the cell (1, 1). *)
Definition minus_five_mark : list float := of_Z <$> [0; 0; 0; -5].
End Inputs.

(** ** Signs of a pair of weights *)

(** [!(0 < x)]: true on NaN. *)
Definition not_positive (x : float) : bool := negb (SFltb (S754_zero false) x).

(** Neither of the two is positive, or neither is negative. *)
Definition same_sign (x y : float) : bool :=
  (not_negative x && not_negative y) || (not_positive x && not_positive y).

(** ** The recurrence in the words of the specification *)

Section StatedCost.
Context {F : Type} `{FloatOps F}.


End StatedCost.

(** The band as the specification writes it, over the integers:
    [i] in [[1, m)] and [j] in [[max(1, i − window), min(m, i + window))]. *)
Definition in_stated_band (m window i j : Z) : Prop :=
  1 ≤ i < m ∧ Z.max 1 (i - window) ≤ j < Z.min m (i + window).





(** "finite and non-negative outside the band gives finite and
    non-negative at every cell with i in [1, m) and j in
    [max(1, i - window), min(m, i + window))". *)
Definition shape_on_stated_band (x1 x2 w costs : list float)
    (m n window : Z) : Prop :=
  (∀ a b, 0 ≤ a < m → 0 ≤ b < m → ¬ in_stated_band m window a b →
     finite_nonneg (entry costs m a b) = true) →
  ∀ out, weighted_euclidean x1 x2 w m n window costs = Some out →
  ∀ i j, in_stated_band m window i j →
    finite_nonneg (entry out m i j) = true.

(** ** Basic facts *)

Section Basics.
Context {F : Type} `{FloatOps F}.
Implicit Types (buf costs : list F) (i j k m n : Z).

Lemma offset_lt rows cols i j :
  0 ≤ i < rows → 0 ≤ j < cols → (offset cols i j < Z.to_nat (rows * cols))%nat.
Proof. unfold offset. intros. apply Z2Nat.inj_lt; nia. Qed.

Lemma offset_inj cols i j i' j' :
  0 ≤ i → 0 ≤ i' → 0 ≤ j < cols → 0 ≤ j' < cols →
  offset cols i j = offset cols i' j' → i = i' ∧ j = j'.
Proof.
  unfold offset. intros ? ? ? ? Heq.
  apply Z2Nat.inj in Heq; [|nia..].
  assert (i = i') as ->; [|lia].
  destruct (Z.lt_trichotomy i i') as [Hlt|[?|Hlt]]; [|done|].
  - assert ((i + 1) * cols ≤ i' * cols) by nia. lia.
  - assert ((i' + 1) * cols ≤ i * cols) by nia. lia.
Qed.

Lemma in_extent_true rows cols i j :
  in_extent rows cols i j = true ↔ 0 ≤ i < rows ∧ 0 ≤ j < cols.
Proof.
  unfold in_extent.
  rewrite !andb_true_iff, !Z.leb_le, !Z.ltb_lt. lia.
Qed.

Lemma coeff_Some buf rows cols i j :
  length buf = Z.to_nat (rows * cols) → 0 ≤ i < rows → 0 ≤ j < cols →
  coeff buf rows cols i j = Some (entry buf cols i j).
Proof.
  intros Hlen Hi Hj. unfold coeff, entry.
  rewrite (proj2 (in_extent_true rows cols i j)) by done.
  destruct (lookup_lt_is_Some_2 buf (offset cols i j)) as [v Hv].
  { rewrite Hlen. by apply offset_lt. }
  by rewrite Hv.
Qed.

Lemma coeff_set_Some buf rows cols i j v :
  length buf = Z.to_nat (rows * cols) → 0 ≤ i < rows → 0 ≤ j < cols →
  coeff_set buf rows cols i j v = Some (<[offset cols i j := v]> buf).
Proof.
  intros Hlen Hi Hj. unfold coeff_set.
  rewrite (proj2 (in_extent_true rows cols i j)) by done.
  rewrite bool_decide_eq_true_2; [done|].
  rewrite Hlen. by apply offset_lt.
Qed.

Lemma mapM_total {A B} (f : A → option B) (g : A → B) (l : list A) :
  (∀ a, a ∈ l → f a = Some (g a)) → mapM f l = Some (g <$> l).
Proof.
  intros Hf. apply mapM_Some_2.
  induction l as [|a l IH]; simpl; constructor.
  - apply Hf. left.
  - apply IH. intros b Hb. apply Hf. by right.
Qed.

Lemma row_Some buf rows cols i :
  length buf = Z.to_nat (rows * cols) → 0 ≤ i < rows →
  row buf rows cols i = Some ((λ k, entry buf cols i k) <$> seqZ 0 cols).
Proof.
  intros Hlen Hi. unfold row. apply mapM_total.
  intros k Hk. apply elem_of_seqZ in Hk. apply coeff_Some; [done..|lia].
Qed.

Lemma entry_insert_eq buf cols i j v :
  (offset cols i j < length buf)%nat →
  entry (<[offset cols i j := v]> buf) cols i j = v.
Proof. intros. unfold entry. by rewrite list_lookup_insert_eq. Qed.

Lemma entry_insert_ne buf cols i j i' j' v :
  0 ≤ i → 0 ≤ i' → 0 ≤ j < cols → 0 ≤ j' < cols → (i, j) ≠ (i', j') →
  entry (<[offset cols i j := v]> buf) cols i' j' = entry buf cols i' j'.
Proof.
  intros ? ? ? ? Hne. unfold entry. rewrite list_lookup_insert_ne; [done|].
  intros Heq. apply offset_inj in Heq; [|done..]. destruct Heq; congruence.
Qed.

(** *** The kernel's two steps, on buffers of the declared extents *)

Lemma local_cost_Some x1 x2 w costs m n i j :
  well_formed x1 x2 w costs m n → 0 ≤ i < m → 0 ≤ j < m →
  local_cost x1 x2 w m n i j = Some (spec_local_cost x1 x2 w n i j).
Proof.
  intros [Hm Hn Hx1 Hx2 Hw Hc] Hi Hj. unfold local_cost.
  rewrite (row_Some x1 m n i), (row_Some x2 m n j) by done. simpl.
  rewrite (coeff_Some w m 1 i 0), (coeff_Some w m 1 j 0)
    by (rewrite ?Z.mul_1_r; done || lia).
  simpl. unfold spec_local_cost. do 3 f_equal.
  rewrite zip_with_fmap_l, zip_with_fmap_r, zip_with_diag. done.
Qed.

Lemma cell_update_Some x1 x2 w costs0 costs m n i j :
  well_formed x1 x2 w costs0 m n → length costs = Z.to_nat (m * m) →
  1 ≤ i < m → 1 ≤ j < m →
  cell_update x1 x2 w m n i j costs =
    Some (<[offset m i j :=
             fadd (spec_local_cost x1 x2 w n i j)
               (fmin (entry costs m i (j - 1))
                  (fmin (entry costs m (i - 1) j)
                     (entry costs m (i - 1) (j - 1))))]> costs).
Proof.
  intros Hwf Hlen Hi Hj. unfold cell_update.
  rewrite (local_cost_Some _ _ _ _ _ _ _ _ Hwf) by lia. simpl.
  rewrite !(coeff_Some costs m m) by (done || lia). simpl.
  by apply coeff_set_Some; [|lia..].
Qed.
End Basics.

(** ** The traversal *)

Section Traversal.
Context {F : Type} `{FloatOps F}.
Implicit Types (costs : list F) (i j m n window : Z).

Lemma for_each_app {A S} (body : A → S → option S) l1 l2 s :
  for_each body (l1 ++ l2) s = for_each body l1 s ≫= for_each body l2.
Proof.
  revert s. induction l1 as [|a l1 IH]; intros s; simpl; [done|].
  destruct (body a s) as [s'|]; simpl; [apply IH|done].
Qed.

Lemma for_each_fmap {A B S} (g : A → B) (body : B → S → option S) l s :
  for_each body (g <$> l) s = for_each (λ a, body (g a)) l s.
Proof.
  revert s. induction l as [|a l IH]; intros s; simpl; [done|].
  destruct (body (g a) s); simpl; [apply IH|done].
Qed.

Lemma for_each_nested {S} (body : Z → Z → S → option S) (g : Z → list Z) l s :
  for_each (λ i, for_each (body i) (g i)) l s =
  for_each (λ c, body c.1 c.2) (i ← l; pair i <$> g i) s.
Proof.
  revert s. induction l as [|i l IH]; intros s; simpl; [done|].
  rewrite for_each_app, for_each_fmap. simpl.
  destruct (for_each (body i) (g i) s); simpl; [apply IH|done].
Qed.

(** The two nested loops visit [cells m window], in that order. *)
Lemma kernel_cells x1 x2 w m n window costs :
  weighted_euclidean x1 x2 w m n window costs =
  for_each (λ c, cell_update x1 x2 w m n c.1 c.2) (cells m window) costs.
Proof.
  unfold weighted_euclidean, for_range, cells.
  by rewrite for_each_nested.
Qed.

Lemma band_lo_ge window i : 1 ≤ band_lo window i.
Proof. unfold band_lo. lia. Qed.

Lemma band_hi_le m window i : band_hi m window i ≤ m.
Proof. unfold band_hi. lia. Qed.

Lemma evaluated_true m window i j :
  evaluated m window i j = true ↔
  1 ≤ i < m ∧ band_lo window i ≤ j < band_hi m window i.
Proof.
  unfold evaluated. rewrite !andb_true_iff, !Z.leb_le, !Z.ltb_lt. lia.
Qed.

Lemma evaluated_interior m window i j :
  evaluated m window i j = true → 1 ≤ i < m ∧ 1 ≤ j < m.
Proof.
  rewrite evaluated_true.
  pose proof (band_lo_ge window i). pose proof (band_hi_le m window i). lia.
Qed.

Lemma elem_of_cells m window i j :
  (i, j) ∈ cells m window ↔ evaluated m window i j = true.
Proof.
  unfold cells. rewrite list_elem_of_bind, evaluated_true. split.
  - intros (i' & Hj & Hi). apply list_elem_of_fmap in Hj as (j' & [= -> ->] & Hj).
    apply elem_of_seqZ in Hi, Hj. lia.
  - intros [Hi Hj]. exists i. split.
    + apply list_elem_of_fmap. exists j. split; [done|]. apply elem_of_seqZ. lia.
    + apply elem_of_seqZ. lia.
Qed.

Lemma seqZ_sorted a len : StronglySorted Z.lt (seqZ a len).
Proof.
  destruct (Z.le_gt_cases len 0) as [?|Hpos].
  { rewrite seqZ_nil by done. constructor. }
  rewrite <- (Z2Nat.id len) by lia. clear Hpos.
  generalize (Z.to_nat len). intros k. revert a.
  induction k as [|k IH]; intros a.
  { rewrite seqZ_nil by lia. constructor. }
  rewrite seqZ_cons by lia. apply StronglySorted_cons. split.
  - apply Forall_forall. intros b Hb. apply elem_of_seqZ in Hb. lia.
  - replace (Z.pred (Z.of_nat (S k))) with (Z.of_nat k) by lia. apply IH.
Qed.

Lemma bands_sorted (lo len : Z → Z) (l : list Z) :
  StronglySorted Z.lt l →
  StronglySorted cell_lt (i ← l; pair i <$> seqZ (lo i) (len i)).
Proof.
  induction 1 as [|i l Hl IH Hi]; simpl; [constructor|].
  apply StronglySorted_app. split_and!.
  - intros c1 c2 Hc1 Hc2.
    apply list_elem_of_fmap in Hc1 as (j1 & -> & _).
    apply list_elem_of_bind in Hc2 as (i2 & Hc2 & Hi2).
    apply list_elem_of_fmap in Hc2 as (j2 & -> & _).
    left. simpl. rewrite Forall_forall in Hi. by apply Hi.
  - apply (StronglySorted_fmap _ Z.lt); [|apply seqZ_sorted].
    intros j1 j2 ?. right. simpl. lia.
  - done.
Qed.

Lemma cells_sorted m window : StronglySorted cell_lt (cells m window).
Proof. apply bands_sorted, seqZ_sorted. Qed.

(** *** Running the body over an ordered list of interior cells

    Every visited cell ends with its local cost plus the minimum of its
    three predecessors as they are at the end of the run; every other
    cell keeps its value. *)
Lemma run_cells x1 x2 w costs0 m n (l : list (Z * Z)) :
  well_formed x1 x2 w costs0 m n →
  StronglySorted cell_lt l →
  (∀ c, c ∈ l → 1 ≤ c.1 < m ∧ 1 ≤ c.2 < m) →
  ∀ costs, length costs = Z.to_nat (m * m) →
  ∃ costs',
    for_each (λ c, cell_update x1 x2 w m n c.1 c.2) l costs = Some costs' ∧
    length costs' = Z.to_nat (m * m) ∧
    (∀ i j, (i, j) ∈ l →
       entry costs' m i j =
         fadd (spec_local_cost x1 x2 w n i j)
           (fmin (entry costs' m i (j - 1))
              (fmin (entry costs' m (i - 1) j)
                 (entry costs' m (i - 1) (j - 1))))) ∧
    (∀ i j, 0 ≤ i < m → 0 ≤ j < m → (i, j) ∉ l →
       entry costs' m i j = entry costs m i j).
Proof.
  intros Hwf Hsorted. induction Hsorted as [|[i j] l Hl IH Hfirst];
    intros Hin costs Hlen.
  { exists costs. split_and!; [done..| |done]. intros ? ? Hc. inversion Hc. }
  destruct (Hin (i, j)) as [Hi Hj]; [left|]. simpl in Hi, Hj.
  simpl. rewrite (cell_update_Some _ _ _ _ _ _ _ _ _ Hwf Hlen Hi Hj). simpl.
  set (v := fadd _ _).
  destruct (IH (λ c Hc, Hin c (list_elem_of_further _ _ _ Hc))
              (<[offset m i j := v]> costs)) as (costs' & Hrun & Hlen' & Hrec & Hframe).
  { by rewrite length_insert. }
  rewrite Forall_forall in Hfirst.
  assert (Hnotin : ∀ a b, (a < i ∨ (a = i ∧ b ≤ j)) → (a, b) ∉ l).
  { intros a b Hab Hc. specialize (Hfirst _ Hc). unfold cell_lt in Hfirst.
    simpl in Hfirst. lia. }
  assert (Hkeep : ∀ a b, 0 ≤ a < m → 0 ≤ b < m →
            (a < i ∨ (a = i ∧ b < j)) →
            entry costs' m a b = entry costs m a b).
  { intros a b Ha Hb Hab. rewrite Hframe by (done || apply Hnotin; lia).
    apply entry_insert_ne; [lia..|]. intros [= -> ->]. lia. }
  exists costs'. split_and!; [done..| |].
  - intros a b Hab. apply elem_of_cons in Hab as [[= -> ->]|Hab]; [|by apply Hrec].
    rewrite Hframe by (lia || apply Hnotin; lia).
    rewrite entry_insert_eq.
    2:{ rewrite Hlen. apply offset_lt; lia. }
    unfold v. by rewrite !Hkeep by lia.
  - intros a b Ha Hb Hab. apply not_elem_of_cons in Hab as [Hne Hab].
    rewrite Hframe by done. apply entry_insert_ne; [lia..|done].
Qed.

(** *** The kernel on buffers of the declared extents *)
Lemma kernel_spec x1 x2 w costs m n window :
  well_formed x1 x2 w costs m n →
  ∃ costs',
    weighted_euclidean x1 x2 w m n window costs = Some costs' ∧
    length costs' = length costs ∧
    (∀ i j, evaluated m window i j = true →
       entry costs' m i j =
         fadd (spec_local_cost x1 x2 w n i j)
           (fmin (entry costs' m i (j - 1))
              (fmin (entry costs' m (i - 1) j)
                 (entry costs' m (i - 1) (j - 1))))) ∧
    (∀ i j, 0 ≤ i < m → 0 ≤ j < m → evaluated m window i j = false →
       entry costs' m i j = entry costs m i j).
Proof.
  intros Hwf. rewrite kernel_cells.
  destruct (run_cells x1 x2 w costs m n (cells m window) Hwf
              (cells_sorted m window)) with (costs := costs)
    as (costs' & Hrun & Hlen & Hrec & Hframe).
  - intros [i j] Hc. apply elem_of_cells, evaluated_interior in Hc. done.
  - apply Hwf.
  - exists costs'. split_and!; [done| | |].
    + rewrite Hlen. symmetry. apply Hwf.
    + intros i j Hev. apply Hrec. by apply elem_of_cells.
    + intros i j Hi Hj Hev. apply Hframe; [done..|].
      rewrite elem_of_cells. by rewrite Hev.
Qed.
End Traversal.

(** ** Integer bounds of the band *)

(** Linear arithmetic with the bounds of [int] unfolded. *)
Ltac int_lia :=
  unfold Int32.in_range, Int32.min_int, Int32.max_int in *; lia.

Section Band.
Implicit Types (i j m window : Z).

Lemma wrap_id z : Int32.in_range z → Int32.wrap z = z.
Proof.
  unfold Int32.in_range, Int32.min_int, Int32.max_int, Int32.wrap. intros.
  rewrite Z.mod_small; lia.
Qed.

Lemma wrap_above z :
  Int32.max_int < z ≤ Int32.max_int + 4294967296 →
  Int32.wrap z = z - 4294967296.
Proof.
  unfold Int32.max_int, Int32.wrap. intros.
  replace (z + 2147483648) with (z - 2147483648 + 1 * 4294967296) by lia.
  rewrite Z.mod_add by lia. rewrite Z.mod_small; lia.
Qed.

(** Without overflow the bounds are the expressions of the source read
    over the integers. *)
Lemma band_exact m window i :
  1 ≤ i ≤ Int32.max_int → 0 ≤ window → i + window ≤ Int32.max_int →
  band_lo window i = Z.max 1 (i - window) ∧
  band_hi m window i = Z.min m (i + window).
Proof.
  intros Hi Hw Hsum. unfold band_lo, band_hi, Int32.sub, Int32.add.
  rewrite !wrap_id; [done|..];
    int_lia.
Qed.

(** For a window in [0, INT_MAX] the visited cells lie in the half-open
    band [i - window <= j < i + window], also when [i + window] wraps. *)
Lemma evaluated_in_band m window i j :
  m ≤ Int32.max_int → 0 ≤ window ≤ Int32.max_int →
  evaluated m window i j = true →
  1 ≤ i < m ∧ 1 ≤ j < m ∧ i - window ≤ j < i + window.
Proof.
  intros Hm Hw Hev. pose proof (evaluated_interior _ _ _ _ Hev) as [Hi Hj].
  apply evaluated_true in Hev as [_ [Hlo Hhi]].
  unfold band_lo, band_hi, Int32.sub, Int32.add in *.
  rewrite wrap_id in Hlo
    by int_lia.
  destruct (Z.le_gt_cases (i + window) Int32.max_int).
  - rewrite wrap_id in Hhi
      by int_lia.
    lia.
  - rewrite wrap_above in Hhi by int_lia.
    int_lia.
Qed.

(** A wider window visits at least the same cells, as long as
    [i + window] does not overflow in any row. *)
Lemma evaluated_mono m w1 w2 i j :
  1 ≤ m → 0 ≤ w1 ≤ w2 → m - 1 + w2 ≤ Int32.max_int →
  evaluated m w1 i j = true → evaluated m w2 i j = true.
Proof.
  intros Hm Hw Hsum Hev.
  pose proof (evaluated_interior _ _ _ _ Hev) as [Hi Hj].
  apply evaluated_true in Hev as [_ Hev]. apply evaluated_true.
  destruct (band_exact m w1 i) as [Hlo1 Hhi1]; [int_lia..|].
  destruct (band_exact m w2 i) as [Hlo2 Hhi2]; [int_lia..|].
  rewrite Hlo1, Hhi1 in Hev. rewrite Hlo2, Hhi2. lia.
Qed.

Lemma cells_nil m window : empty_band m window → cells m window = [].
Proof.
  intros Hempty. destruct (cells m window) as [|[i j] l] eqn:Hcells; [done|].
  assert (Hin : (i, j) ∈ cells m window) by (rewrite Hcells; left).
  apply elem_of_cells, evaluated_true in Hin as [Hi Hj].
  specialize (Hempty i Hi). lia.
Qed.

Lemma cells_ext m w w' :
  (∀ i, 1 ≤ i < m →
     band_lo w i = band_lo w' i ∧ band_hi m w i = band_hi m w' i) →
  cells m w = cells m w'.
Proof.
  intros Hsame. unfold cells.
  assert (Hrows : Forall (λ i, 1 ≤ i < m) (seqZ 1 (m - 1))).
  { apply Forall_seqZ. lia. }
  induction Hrows as [|i l Hi _ IH]; [done|].
  rewrite !bind_cons. destruct (Hsame i Hi) as [-> ->]. by rewrite IH.
Qed.
End Band.

(** ** Properties that hold for every arithmetic *)

Section Generic.
Context {F : Type} `{FloatOps F}.
Implicit Types (w costs : list F) (i j m n window : Z).


(** C2, as amended.  For a window in [0, INT_MAX] the kernel writes only
    cells with [i >= 1], [j >= 1] and [i - window <= j < i + window]; row
    0, column 0 and every cell outside that half-open band keep their
    value. *)
Theorem half_open_band_frame (x1 x2 : list F) w costs m n window :
  well_formed x1 x2 w costs m n → 0 ≤ window ≤ Int32.max_int →
  ∃ costs',
    weighted_euclidean x1 x2 w m n window costs = Some costs' ∧
    length costs' = length costs ∧
    ∀ i j, 0 ≤ i < m → 0 ≤ j < m →
      ¬ (1 ≤ i ∧ 1 ≤ j ∧ i - window ≤ j < i + window) →
      entry costs' m i j = entry costs m i j.
Proof.
  intros Hwf Hw.
  destruct (kernel_spec x1 x2 w costs m n window Hwf)
    as (costs' & Hrun & Hlen & _ & Hframe).
  exists costs'. split_and!; [done..|]. intros i j Hi Hj Hout.
  apply Hframe; [done..|].
  destruct (evaluated m window i j) eqn:Hev; [|done].
  apply evaluated_in_band in Hev; [|apply Hwf|done]. lia.
Qed.

(** C3. On buffers of the declared extents no access of the kernel leaves
    them: the run never takes the failure branch of a checked access,
    whatever the window. *)
Theorem accesses_within_extents (x1 x2 : list F) w costs m n window :
  well_formed x1 x2 w costs m n →
  is_Some (weighted_euclidean x1 x2 w m n window costs).
Proof.
  intros Hwf.
  destruct (kernel_spec x1 x2 w costs m n window Hwf) as (costs' & Hrun & _).
  by exists costs'.
Qed.

(** C9. With [m = 1] the outer loop runs over the empty range [1, 1): the
    kernel touches no buffer and returns the cost matrix it was given,
    whatever the buffers, [n] and the window. *)
Theorem single_row_untouched (x1 x2 : list F) w costs n window :
  weighted_euclidean x1 x2 w 1 n window costs = Some costs.
Proof.
  unfold weighted_euclidean, for_range.
  rewrite (seqZ_nil 1 (1 - 1)) by lia. reflexivity.
Qed.

Lemma empty_band_untouched (x1 x2 : list F) w costs m n window :
  empty_band m window →
  weighted_euclidean x1 x2 w m n window costs = Some costs.
Proof. intros Hempty. by rewrite kernel_cells, cells_nil. Qed.

Lemma nonpositive_window_empty_band m window :
  1 ≤ m ≤ Int32.max_int → Int32.min_int ≤ window ≤ 0 →
  m ≤ 1073741825 ∨ m - 1 - window ≤ Int32.max_int →
  empty_band m window.
Proof.
  intros Hm Hw Hsmall i Hi. unfold band_lo, band_hi, Int32.sub, Int32.add.
  rewrite (wrap_id (i + window))
    by int_lia.
  destruct (Z.le_gt_cases (i - window) Int32.max_int).
  - rewrite wrap_id
      by int_lia.
    lia.
  - rewrite wrap_above by int_lia.
    int_lia.
Qed.

(** C10, as amended.  For a window in [INT_MIN, 0] and [m <= 2^30 + 1], or
    any [m] for which [i - window] stays in range in every row, the inner
    loop range is empty for every [i] and the kernel returns the cost
    matrix it was given. *)
Theorem nonpositive_window_untouched (x1 x2 : list F) w costs m n window :
  1 ≤ m ≤ Int32.max_int → Int32.min_int ≤ window ≤ 0 →
  m ≤ 1073741825 ∨ m - 1 - window ≤ Int32.max_int →
  empty_band m window ∧
  weighted_euclidean x1 x2 w m n window costs = Some costs.
Proof.
  intros Hm Hw Hsmall.
  assert (empty_band m window) by by apply nonpositive_window_empty_band.
  split; [done|]. by apply empty_band_untouched.
Qed.

(** A window of at least [m] behaves as the window [m] as long as
    [i + window] does not overflow in any row. *)
Lemma window_beyond_m (x1 x2 : list F) w costs m n window :
  1 ≤ m ≤ window → m - 1 + window ≤ Int32.max_int →
  weighted_euclidean x1 x2 w m n window costs =
  weighted_euclidean x1 x2 w m n m costs.
Proof.
  intros Hm Hsum. rewrite !kernel_cells. f_equal. apply cells_ext.
  intros i Hi.
  destruct (band_exact m window i) as [-> ->]; [int_lia..|].
  destruct (band_exact m m i) as [-> ->]; [int_lia..|].
  lia.
Qed.
End Generic.

(** ** Properties that depend on the arithmetic only through a few laws *)

Section Laws.
Context {F : Type} `{FloatOps F}.
Implicit Types (w costs : list F) (i j m n window : Z).

(* Two cells whose coordinates do not add up to the same number differ. *)
Local Ltac distinct_cells :=
  let Heq := fresh in
  intros Heq; apply (f_equal (λ c : Z * Z, c.1 + c.2)) in Heq; simpl in Heq; lia.

Lemma fmin_cases (a b : F) : fmin a b = a ∨ fmin a b = b.
Proof. unfold fmin. destruct (fltb b a); auto. Qed.

(** A property of values that addition preserves, that holds of the
    caller's values the recurrence reads and of every local cost, holds of
    every evaluated cell. *)
Lemma invariant_on_evaluated (P : F → Prop) (x1 x2 : list F) w costs costs' m n window :
  (∀ a b, P a → P b → P (fadd a b)) →
  well_formed x1 x2 w costs m n →
  weighted_euclidean x1 x2 w m n window costs = Some costs' →
  (∀ a b, boundary_read m window a b = true → P (entry costs m a b)) →
  (∀ i j, evaluated m window i j = true → P (spec_local_cost x1 x2 w n i j)) →
  ∀ i j, evaluated m window i j = true → P (entry costs' m i j).
Proof.
  intros Hadd Hwf Hrun Hboundary Hlocal.
  destruct (kernel_spec x1 x2 w costs m n window Hwf)
    as (c & Hrun' & _ & Hrec & Hframe).
  rewrite Hrun in Hrun'. injection Hrun' as <-.
  assert (Hpred : ∀ k i j, i + j < Z.of_nat k →
            evaluated m window i j = true → P (entry costs' m i j)).
  { induction k as [|k IH]; intros i j Hk Hev.
    { apply evaluated_interior in Hev. lia. }
    pose proof (evaluated_interior _ _ _ _ Hev) as [Hi Hj].
    assert (Hread : ∀ a b, (a = i ∨ a = i - 1) → (b = j ∨ b = j - 1) →
              (a, b) ≠ (i, j) → P (entry costs' m a b)).
    { intros a b Ha Hb Hne.
      destruct (evaluated m window a b) eqn:Hab; [apply IH; [|done]|].
      - destruct Ha as [-> | ->], Hb as [-> | ->]; (done || lia).
      - rewrite Hframe by (done || lia). apply Hboundary.
        unfold boundary_read. rewrite Hab. simpl.
        destruct Ha as [-> | ->], Hb as [-> | ->]; [done|..];
          rewrite ?Z.sub_add, Hev, ?orb_true_r; done. }
    rewrite Hrec by done. apply Hadd; [by apply Hlocal|].
    destruct (fmin_cases (entry costs' m i (j - 1))
                (fmin (entry costs' m (i - 1) j) (entry costs' m (i - 1) (j - 1))))
      as [-> | ->]; [apply Hread; [auto..|distinct_cells]|].
    destruct (fmin_cases (entry costs' m (i - 1) j) (entry costs' m (i - 1) (j - 1)))
      as [-> | ->]; apply Hread; auto; distinct_cells. }
  intros i j Hev. apply (Hpred (Z.to_nat (i + j + 1))); [|done].
  apply evaluated_interior in Hev. lia.
Qed.

(** Under a wider window whose dependency chain for a cell stays inside
    the narrower band, the cell ends with the same value. *)
Lemma widening_same (x1 x2 : list F) w costs (c1 c2 : list F) m n (w1 w2 : Z) :
  well_formed x1 x2 w costs m n →
  0 ≤ w1 ≤ w2 → m - 1 + w2 ≤ Int32.max_int →
  weighted_euclidean x1 x2 w m n w1 costs = Some c1 →
  weighted_euclidean x1 x2 w m n w2 costs = Some c2 →
  ∀ links i j, chain_covered_upto links w1 w2 m i j = true →
    evaluated m w2 i j = true → entry c2 m i j = entry c1 m i j.
Proof.
  intros Hwf Hw Hsum Hrun1 Hrun2.
  destruct (kernel_spec x1 x2 w costs m n w1 Hwf) as (c & Hc & _ & Hrec1 & Hframe1).
  rewrite Hrun1 in Hc. injection Hc as <-.
  destruct (kernel_spec x1 x2 w costs m n w2 Hwf) as (c & Hc & _ & Hrec2 & Hframe2).
  rewrite Hrun2 in Hc. injection Hc as <-.
  assert (Hm : 1 ≤ m) by apply Hwf.
  induction links as [|k IH]; intros i j Hchain Hev2; simpl in Hchain;
    rewrite Hev2 in Hchain; apply andb_true_iff in Hchain as [Hev1 Hchain];
    [done|].
  apply andb_true_iff in Hchain as [Hchain Hdiag].
  apply andb_true_iff in Hchain as [Hleft Hup].
  pose proof (evaluated_interior _ _ _ _ Hev2) as [Hi Hj].
  assert (Hread : ∀ a b, 0 ≤ a < m → 0 ≤ b < m →
            chain_covered_upto k w1 w2 m a b = true →
            entry c2 m a b = entry c1 m a b).
  { intros a b Ha Hb Hab.
    destruct (evaluated m w2 a b) eqn:Hab2; [by apply IH|].
    destruct (evaluated m w1 a b) eqn:Hab1.
    { apply (evaluated_mono m w1 w2) in Hab1; [congruence|done..]. }
    by rewrite Hframe1, Hframe2. }
  rewrite Hrec1, Hrec2 by done.
  by rewrite !Hread by (done || lia).
Qed.

Lemma zip_with_sym {A B} (f : A → A → B) (l k : list A) :
  (∀ a b, f a b = f b a) → zip_with f l k = zip_with f k l.
Proof.
  intros Hf. revert k. induction l as [|a l IH]; intros [|b k]; simpl; [done..|].
  by rewrite Hf, IH.
Qed.

(** With a commutative product and a squared difference that does not
    depend on the order of its operands, the local cost of [(i, j)] for
    [(X1, X2)] is the local cost of [(j, i)] for [(X2, X1)]. *)
Lemma local_cost_transpose (x1 x2 : list F) w m n i j :
  (∀ a b : F, fmul a b = fmul b a) →
  (∀ a b : F, fmul (fsub a b) (fsub a b) = fmul (fsub b a) (fsub b a)) →
  local_cost x1 x2 w m n i j = local_cost x2 x1 w m n j i.
Proof.
  intros Hcomm Hsq. unfold local_cost.
  destruct (row x1 m n i) as [xi|], (row x2 m n j) as [xj|],
    (coeff w m 1 i 0) as [wi|], (coeff w m 1 j 0) as [wj|]; simpl; try done.
  by rewrite (Hcomm wi wj), (zip_with_sym _ xi xj).
Qed.
End Laws.

(** ** Facts of binary32 arithmetic *)

Section Binary32Facts.
Implicit Types (x y : float).

Lemma SFleb_refl x : is_nan x = false → SFleb x x = true.
Proof.
  destruct x as [s|s| |s mx ex]; try done; unfold SFleb, SFcompare.
  - by destruct s.
  - rewrite Z.compare_refl, Pos.compare_cont_refl. by destruct s.
Qed.

Lemma mul_comm x y : SFmul prec emax x y = SFmul prec emax y x.
Proof.
  destruct x as [sx|sx| |sx mx ex], y as [sy|sy| |sy my ey];
    unfold SFmul; try done; try (by rewrite xorb_comm).
  by rewrite xorb_comm, Pos.mul_comm, Z.add_comm.
Qed.

Lemma round_aux_opp s mz ez l :
  SFopp (binary_round_aux prec emax s mz ez l) =
  binary_round_aux prec emax (negb s) mz ez l.
Proof.
  unfold binary_round_aux.
  destruct (shr_fexp prec emax mz ez l) as [mrs' e'].
  destruct (shr_fexp prec emax _ e' loc_Exact) as [mrs'' e''].
  destruct (shr_m mrs''); [done| |done].
  by destruct (Z.leb e'' (Z.sub emax prec)).
Qed.

Lemma round_opp s mx ex :
  SFopp (binary_round prec emax s mx ex) = binary_round prec emax (negb s) mx ex.
Proof.
  unfold binary_round. destruct (shl_align mx ex _) as [mz ez].
  apply round_aux_opp.
Qed.

Lemma normalize_opp z e :
  binary_normalize prec emax (- z) e false =
  if decide (z = 0) then S754_zero false
  else SFopp (binary_normalize prec emax z e false).
Proof. destruct z; simpl; [done|..]; by rewrite round_opp. Qed.

Lemma mul_opp_opp x : SFmul prec emax (SFopp x) (SFopp x) = SFmul prec emax x x.
Proof. destruct x as [s|s| |s mx ex]; try done; by destruct s. Qed.

(** [x - y] and [y - x] are opposite, or both [+0]. *)
Lemma sub_swap x y :
  SFsub prec emax y x = SFopp (SFsub prec emax x y) ∨
  SFsub prec emax y x = SFsub prec emax x y.
Proof.
  destruct x as [sx|sx| |sx mx ex], y as [sy|sy| |sy my ey];
    try (by left); try (by right);
    try (destruct sx, sy; by (left + right)).
  unfold SFsub. rewrite (Z.min_comm ey ex).
  set (a := cond_Zopp sx _). set (b := cond_Zopp sy _).
  replace (b - a) with (- (a - b)) by lia. rewrite normalize_opp.
  case_decide as Hz; [right; by rewrite Hz|by left].
Qed.

Lemma sq_diff_sym x y :
  SFmul prec emax (SFsub prec emax x y) (SFsub prec emax x y) =
  SFmul prec emax (SFsub prec emax y x) (SFsub prec emax y x).
Proof.
  destruct (sub_swap x y) as [-> | ->]; [|done]. by rewrite mul_opp_opp.
Qed.

(** *** Signs *)

Lemma finite_nonneg_not_negative x : finite_nonneg x = true → not_negative x = true.
Proof. destruct x as [s|s| |s mx ex]; try done; by destruct s. Qed.

Lemma nonneg_not_negative x : nonneg x = true → not_negative x = true.
Proof. destruct x as [s|s| |s mx ex]; try done; by destruct s. Qed.

Lemma round_aux_not_negative mz ez l :
  not_negative (binary_round_aux prec emax false mz ez l) = true.
Proof.
  unfold binary_round_aux.
  destruct (shr_fexp prec emax mz ez l) as [mrs' e'].
  destruct (shr_fexp prec emax _ e' loc_Exact) as [mrs'' e''].
  destruct (shr_m mrs''); [done| |done].
  by destruct (Z.leb e'' (Z.sub emax prec)).
Qed.

Lemma normalize_not_negative z e :
  0 ≤ z → not_negative (binary_normalize prec emax z e false) = true.
Proof.
  destruct z as [|p|p]; [done| |lia]. intros _. unfold binary_normalize, binary_round.
  destruct (shl_align p e _) as [mz ez]. apply round_aux_not_negative.
Qed.

Lemma mul_not_negative x y :
  not_negative x = true → not_negative y = true →
  not_negative (SFmul prec emax x y) = true.
Proof.
  destruct x as [sx|[]| |[] mx ex], y as [sy|[]| |[] my ey];
    try done; intros _ _; apply round_aux_not_negative.
Qed.

Lemma mul_self_not_negative x : not_negative (SFmul prec emax x x) = true.
Proof.
  destruct x as [[]|[]| |s mx ex]; try done. unfold SFmul.
  rewrite xorb_nilpotent. apply round_aux_not_negative.
Qed.

Lemma add_not_negative x y :
  not_negative x = true → not_negative y = true →
  not_negative (SFadd prec emax x y) = true.
Proof.
  destruct x as [[]|[]| |[] mx ex], y as [[]|[]| |[] my ey];
    try done; intros _ _. unfold SFadd. apply normalize_not_negative.
  unfold cond_Zopp. lia.
Qed.

Lemma sqrt_not_negative x : not_negative (SFsqrt prec emax x) = true.
Proof.
  destruct x as [s|[]| |[] mx ex]; try done. unfold SFsqrt.
  destruct (SFsqrt_core_binary prec emax (Zpos mx) ex) as [[mz ez] lz].
  apply round_aux_not_negative.
Qed.

Lemma array_sum_not_negative (l : list float) :
  Forall (λ x, not_negative x = true) l → not_negative (array_sum l) = true.
Proof.
  destruct 1 as [|x l Hx Hl]; [done|]. simpl. revert x Hx.
  induction Hl as [|y l Hy _ IH]; intros x Hx; simpl; [done|].
  apply IH. by apply add_not_negative.
Qed.

(** The local cost is not negative when the two weights are not. *)
Lemma spec_local_cost_not_negative (x1 x2 w : list float) n i j :
  not_negative (entry w 1 i 0) = true → not_negative (entry w 1 j 0) = true →
  not_negative (spec_local_cost x1 x2 w n i j) = true.
Proof.
  intros Hi Hj. unfold spec_local_cost.
  apply mul_not_negative; [by apply mul_not_negative|apply sqrt_not_negative].
Qed.
End Binary32Facts.

(** ** The kernel in binary32 *)

Section Binary32Kernel.
Import Inputs.
Implicit Types (w costs : list float) (i j m n window : Z).

Lemma entry_Forall (P : float → Prop) (buf : list float) cols i j :
  P fzero → Forall P buf → P (entry buf cols i j).
Proof.
  intros Hzero Hbuf. unfold entry.
  destruct (buf !! offset cols i j) as [v|] eqn:Hv; simpl; [|done].
  rewrite Forall_forall in Hbuf. by eapply Hbuf, list_elem_of_lookup_2.
Qed.

(** *** C2 *)

(** C2, counterexample.  With m = 3 and window = 1 the kernel overwrites
    C(2, 1), a cell with |i - j| = 1, not below the window. *)
Lemma symmetric_band_frame_fails :
  ¬ symmetric_band_frame seq012 seq012 (ones 3) sevens 3 1 1.
Proof.
  intros Hclaim.
  pose proof (Hclaim _ ltac:(vm_compute; reflexivity) 2 1
                ltac:(lia) ltac:(lia) ltac:(lia)) as Hsame.
  vm_compute in Hsame. discriminate.
Qed.

(** *** C4 *)

(** C4, counterexample.  With W = [1, -1, 1] and a cost matrix of zeros
    the evaluated cell C(2, 1) ends at -1.  And with m = 2 and
    window = INT_MAX the cell (1, 1) lies in the band
    [max(1, i - window), min(m, i + window)) read over the integers, but
    [i + window] wraps, the row is skipped and C(1, 1) keeps the caller's
    -5, while row 0 and column 0 hold zeros. *)
Lemma shape_property_fails :
  ¬ shape_property step_at_2 (zeros 3) signed_weights (zeros 9) 3 1 1 ∧
  ¬ shape_on_stated_band (zeros 2) (zeros 2) (ones 2) minus_five_mark
      2 1 Int32.max_int.
Proof.
  split; intros Hclaim.
  - assert (Hcell : finite_nonneg
                      (entry (of_Z <$> [0; 0; 0; 0; 0; 0; 0; -1; 0]) 3 2 1) = true).
    { apply (Hclaim ltac:(intros a b _; apply entry_Forall; [done|by repeat constructor])
               _ ltac:(vm_compute; reflexivity) 2 1).
      reflexivity. }
    vm_compute in Hcell. discriminate.
  - assert (Hband : in_stated_band 2 Int32.max_int 1 1).
    { unfold in_stated_band. int_lia. }
    assert (Hcell : finite_nonneg (entry minus_five_mark 2 1 1) = true).
    { apply (Hclaim) with (i := 1) (j := 1); [|vm_compute; reflexivity|done].
      intros a b Ha Hb Hout.
      assert (Hab : (a = 0 ∨ a = 1) ∧ (b = 0 ∨ b = 1)) by lia.
      destruct Hab as [[-> | ->] [-> | ->]]; try reflexivity.
      by destruct Hout. }
    vm_compute in Hcell. discriminate.
Qed.

(** Finite non-negative inputs can overflow: with W[1] = 2^127 and
    X1[1] - X2[1] = 1 the cell C(1, 1) ends at +∞. *)
Lemma positive_weights_overflow :
  weighted_euclidean (ones 2) (zeros 2) [of_Z 1; of_Z (2 ^ 127)] 2 1 1 (zeros 4)
  = Some [of_Z 0; of_Z 0; of_Z 0; S754_infinity false].
Proof. vm_compute. reflexivity. Qed.

(** *** C5 *)

(** C5, counterexample.  With W[1] = 0 and X1[1] - X2[1] overflowing to
    +∞ the local cost of (1, 1) is 0 * ∞: C(1, 1) is NaN under both
    windows, and NaN <= NaN does not hold.  And with w2 = INT_MAX the sum
    [i + w2] wraps, row 1 is not evaluated, and C(1, 1) keeps the caller's 7
    while it is 0 under w1 = 1. *)
Lemma band_monotone_fails :
  ¬ band_monotone huge minus_huge weights_1_0 (zeros 4) 2 1 1 2 ∧
  ¬ band_monotone (zeros 2) (zeros 2) (ones 2) marked_costs 2 1 1 Int32.max_int.
Proof.
  split; intros Hclaim.
  - pose proof (Hclaim ltac:(lia) _ _ ltac:(vm_compute; reflexivity)
                  ltac:(vm_compute; reflexivity) 1 1 eq_refl eq_refl) as Hle.
    vm_compute in Hle. discriminate.
  - pose proof (Hclaim ltac:(int_lia) _ _
                  ltac:(vm_compute; reflexivity)
                  ltac:(vm_compute; reflexivity) 1 1 eq_refl eq_refl) as Hle.
    vm_compute in Hle. discriminate.
Qed.

(** C5, as amended.  For windows 0 <= w1 <= w2 with [i + w2] in range in
    every row, a cell evaluated under w1 whose w2 dependency chain stays
    inside the w1 band ends with the same value under both windows; hence
    C_w2(i, j) <= C_w1(i, j) whenever that value is not NaN. *)
Theorem widening_keeps_values (x1 x2 : list float) w costs m n (w1 w2 : Z) :
  well_formed x1 x2 w costs m n →
  0 ≤ w1 ≤ w2 → m - 1 + w2 ≤ Int32.max_int →
  ∃ c1 c2,
    weighted_euclidean x1 x2 w m n w1 costs = Some c1 ∧
    weighted_euclidean x1 x2 w m n w2 costs = Some c2 ∧
    ∀ i j, evaluated m w1 i j = true → chain_covered w1 w2 m i j = true →
      entry c2 m i j = entry c1 m i j ∧
      (is_nan (entry c1 m i j) = false →
       SFleb (entry c2 m i j) (entry c1 m i j) = true).
Proof.
  intros Hwf Hw Hsum.
  destruct (kernel_spec x1 x2 w costs m n w1 Hwf) as (c1 & Hrun1 & _).
  destruct (kernel_spec x1 x2 w costs m n w2 Hwf) as (c2 & Hrun2 & _).
  exists c1, c2. split_and!; [done..|]. intros i j Hev Hchain.
  assert (Hsame : entry c2 m i j = entry c1 m i j).
  { eapply widening_same; [done..|].
    eapply evaluated_mono; [apply Hwf|done..]. }
  split; [done|]. rewrite Hsame. apply SFleb_refl.
Qed.

(** *** C6 *)

(** C6, at the failing input.  With m = 2 the window INT_MAX leaves
    C(1, 1) as the caller set it, the window 2 overwrites it: in row 1
    [i + window] wraps below zero and the inner loop does not run. *)
Theorem window_int_max_differs :
  band_hi 2 Int32.max_int 1 = -2147483648 ∧
  weighted_euclidean (zeros 2) (zeros 2) (ones 2) 2 1 Int32.max_int marked_costs
    = Some marked_costs ∧
  weighted_euclidean (zeros 2) (zeros 2) (ones 2) 2 1 2 marked_costs
    = Some (zeros 4).
Proof. split_and!; vm_compute; reflexivity. Qed.

(** *** C7 *)

(** C7, counterexample.  With X1 = [0, 1, 2] and X2 = [0, 0, 0] the local
    cost of the evaluated cell (1, 2) is 1; with the inputs swapped it is
    2. *)
Lemma swap_at_same_cell_fails :
  ¬ swap_at_same_cell seq012 (zeros 3) (ones 3) 3 1 2.
Proof.
  intros Hclaim. specialize (Hclaim 1 2 eq_refl).
  vm_compute in Hclaim. discriminate.
Qed.

(** C7, as amended.  The local cost computed at cell (i, j) with inputs
    (X1, X2) equals the local cost computed at the transposed cell (j, i)
    with the inputs swapped to (X2, X1), W unchanged. *)
Theorem local_cost_swap_transposed (x1 x2 : list float) w m n i j :
  local_cost x1 x2 w m n i j = local_cost x2 x1 w m n j i.
Proof. apply local_cost_transpose; [apply mul_comm|apply sq_diff_sym]. Qed.

(** *** C8 *)

(** C8.  In the scenario of the specification (m = 3, n = 1,
    X1 = X2 = [0, 1, 2], W = [1, 1, 1], window = 3, C(0,0) = 0 and the
    rest of row 0 and column 0 at 1e9) the kernel produces C(1,1) = 0 and
    C(2,2) = 0, whatever the interior held. *)
Theorem scenario_diagonal (c11 c12 c21 c22 : float) :
  ∃ costs',
    weighted_euclidean seq012 seq012 (ones 3) 3 1 3
      (scenario_costs c11 c12 c21 c22) = Some costs' ∧
    entry costs' 3 1 1 = of_Z 0 ∧ entry costs' 3 2 2 = of_Z 0.
Proof. eexists. split_and!; vm_compute; reflexivity. Qed.

(** *** C10 *)

Lemma empty_band_fails : ¬ empty_band far_m far_window.
Proof.
intros Hclaim. specialize (Hclaim far_row ltac:(unfold far_m, far_row; lia)).
vm_compute in Hclaim. by apply Hclaim.
Qed.

Lemma entry_replicate (len : Z) (v : float) cols i j :
  0 ≤ i * cols + j < len → entry (replicate (Z.to_nat len) v) cols i j = v.
Proof.
intros Hlt. unfold entry. rewrite lookup_replicate_2; [done|].
unfold offset. apply Z2Nat.inj_lt; lia.
Qed.

Lemma entry_zeros (k : nat) cols i j : entry (zeros k) cols i j = of_Z 0.
Proof.
unfold entry, zeros.
destruct (replicate k (of_Z 0) !! offset cols i j) as [v|] eqn:Hv; [|done].
by apply lookup_replicate in Hv as [-> _].
Qed.

Lemma far_well_formed :
  well_formed (ones (Z.to_nat far_m)) (zeros (Z.to_nat far_m)) (ones (Z.to_nat far_m))
    (zeros (Z.to_nat (far_m * far_m))) far_m 1.
Proof.
constructor; unfold ones, zeros; rewrite ?length_replicate, ?Z.mul_1_r;
  [unfold far_m; int_lia..|exact eq_refl|exact eq_refl|exact eq_refl|exact eq_refl].
Qed.

Lemma far_evaluated : evaluated far_m far_window far_row 1 = true.
Proof. vm_compute. reflexivity. Qed.

Lemma far_local_cost :
  spec_local_cost (ones (Z.to_nat far_m)) (zeros (Z.to_nat far_m))
    (ones (Z.to_nat far_m)) 1 far_row 1 = of_Z 1.
Proof.
unfold spec_local_cost. change (seqZ 0 1) with [0]. cbn [fmap list_fmap].
rewrite !entry_zeros. unfold ones.
rewrite !entry_replicate by (unfold far_m, far_row; lia).
vm_compute. reflexivity.
Qed.

Lemma far_cell costs' :
  weighted_euclidean (ones (Z.to_nat far_m)) (zeros (Z.to_nat far_m))
    (ones (Z.to_nat far_m)) far_m 1 far_window (zeros (Z.to_nat (far_m * far_m)))
  = Some costs' →
  entry costs' far_m far_row 1 =
    fadd (of_Z 1)
      (fmin (entry costs' far_m far_row (1 - 1))
         (fmin (entry costs' far_m (far_row - 1) 1)
            (entry costs' far_m (far_row - 1) (1 - 1)))).
Proof.
intros Hrun.
destruct (kernel_spec _ _ _ _ _ _ far_window far_well_formed)
  as (c & Hc & _ & Hrec & _).
rewrite Hrun in Hc. injection Hc as <-.
rewrite <- far_local_cost. apply Hrec, far_evaluated.
Qed.

(** C10, counterexample.  With m = 2^30 + 2 and window = -(2^30 - 1), in
    row i = 2^30 + 1 the difference [i - window] is 2^31 and wraps to
    INT_MIN: the inner loop runs over [1, 2), and on X1 = 1, X2 = 0, W = 1
    and a cost matrix of zeros the kernel sets C(i, 1) to 1. *)
Lemma nonpositive_window_writes :
  far_window ≤ 0 ∧
  well_formed (ones (Z.to_nat far_m)) (zeros (Z.to_nat far_m)) (ones (Z.to_nat far_m))
    (zeros (Z.to_nat (far_m * far_m))) far_m 1 ∧
  ¬ empty_band far_m far_window ∧
  weighted_euclidean (ones (Z.to_nat far_m)) (zeros (Z.to_nat far_m))
    (ones (Z.to_nat far_m)) far_m 1 far_window (zeros (Z.to_nat (far_m * far_m)))
  ≠ Some (zeros (Z.to_nat (far_m * far_m))).
Proof.
  split_and!; [done|apply far_well_formed|apply empty_band_fails|].
  intros Hrun. apply far_cell in Hrun. rewrite !entry_zeros in Hrun.
  vm_compute in Hrun. discriminate Hrun.
Qed.
End Binary32Kernel.

(** ** The theorems at concrete inputs *)

Section Witnesses.
Import Inputs.

Local Ltac extents :=
  constructor; [int_lia..|reflexivity|reflexivity|reflexivity|reflexivity].

Lemma half_open_band_frame_witness :
  ∃ costs',
    weighted_euclidean seq012 seq012 (ones 3) 3 1 1 sevens = Some costs' ∧
    length costs' = length sevens ∧
    ∀ i j, 0 ≤ i < 3 → 0 ≤ j < 3 →
      ¬ (1 ≤ i ∧ 1 ≤ j ∧ i - 1 ≤ j < i + 1) →
      entry costs' 3 i j = entry sevens 3 i j.
Proof.
  apply half_open_band_frame; [extents|int_lia].
Defined.

Lemma accesses_within_extents_witness :
  is_Some (weighted_euclidean seq012 seq012 (ones 3) 3 1 3 sevens).
Proof. apply accesses_within_extents. extents. Defined.

Lemma widening_keeps_values_witness :
  evaluated 4 2 2 2 = true ∧ chain_covered 2 3 4 2 2 = true ∧
  evaluated 4 3 1 3 = true ∧ evaluated 4 2 1 3 = false ∧
  ∃ c1 c2,
    weighted_euclidean (of_Z <$> [0; 1; 2; 3]) (of_Z <$> [3; 1; 0; 2]) (ones 4)
      4 1 2 (zeros 16) = Some c1 ∧
    weighted_euclidean (of_Z <$> [0; 1; 2; 3]) (of_Z <$> [3; 1; 0; 2]) (ones 4)
      4 1 3 (zeros 16) = Some c2 ∧
    ∀ i j, evaluated 4 2 i j = true → chain_covered 2 3 4 i j = true →
      entry c2 4 i j = entry c1 4 i j ∧
      (is_nan (entry c1 4 i j) = false →
       SFleb (entry c2 4 i j) (entry c1 4 i j) = true).
Proof.
  split_and!; [reflexivity..|].
  apply widening_keeps_values; [extents|lia|int_lia].
Defined.

Lemma nonpositive_window_untouched_witness :
  empty_band 3 (-2) ∧
  weighted_euclidean seq012 seq012 (ones 3) 3 1 (-2) sevens = Some sevens.
Proof.
  apply nonpositive_window_untouched;
    [int_lia|int_lia|left; lia].
Defined.
End Witnesses.

(** ** Further properties of the kernel *)

(** *** What a cell depends on *)

Section Dependence.
Context {F : Type} `{FloatOps F}.
Implicit Types (costs : list F) (i j m n window : Z).

Lemma spec_local_cost_ext (x1 x2 w x1' x2' w' : list F) n i j :
  (∀ k, 0 ≤ k < n → entry x1 n i k = entry x1' n i k) →
  (∀ k, 0 ≤ k < n → entry x2 n j k = entry x2' n j k) →
  entry w 1 i 0 = entry w' 1 i 0 → entry w 1 j 0 = entry w' 1 j 0 →
  spec_local_cost x1 x2 w n i j = spec_local_cost x1' x2' w' n i j.
Proof.
  intros Hx1 Hx2 Hwi Hwj. unfold spec_local_cost. rewrite Hwi, Hwj.
  do 3 f_equal. apply Forall_fmap_ext, Forall_seqZ.
  intros k Hk. by rewrite Hx1, Hx2 by lia.
Qed.

(** Two matrices of [m * m] cells with the same entries are the same list. *)
Lemma matrix_eq (c c' : list F) m :
  0 < m → length c = Z.to_nat (m * m) → length c' = Z.to_nat (m * m) →
  (∀ i j, 0 ≤ i < m → 0 ≤ j < m → entry c m i j = entry c' m i j) →
  c = c'.
Proof.
  intros Hm Hlen Hlen' Hsame. apply list_eq. intros k.
  destruct (decide (k < length c)%nat) as [Hk|Hk].
  - pose proof (Z.div_mod (Z.of_nat k) m ltac:(lia)) as Hdm.
    pose proof (Z.mod_pos_bound (Z.of_nat k) m Hm) as Hmod.
    assert (0 ≤ Z.of_nat k `div` m < m) as Hdiv.
    { split; [apply Z.div_pos; lia|]. apply Z.div_lt_upper_bound; lia. }
    specialize (Hsame _ _ Hdiv Hmod). unfold entry, offset in Hsame.
    replace (Z.to_nat (Z.of_nat k `div` m * m + Z.of_nat k `mod` m)) with k
      in Hsame by lia.
    destruct (lookup_lt_is_Some_2 c k Hk) as [v Hv].
    destruct (lookup_lt_is_Some_2 c' k ltac:(lia)) as [v' Hv'].
    rewrite Hv, Hv' in *. simpl in Hsame. by rewrite Hsame.
  - rewrite !lookup_ge_None_2; [done|lia..].
Qed.

(** The value of a cell is decided by the rows of X1 up to its row, the
    rows of X2 up to its column, the weights up to both, and the caller's
    cells above and to the left of it. *)
Lemma cone_agree (x1 x2 w costs x1' x2' w' costs' out out' : list F)
    m n window (I J : Z) :
  well_formed x1 x2 w costs m n → well_formed x1' x2' w' costs' m n →
  weighted_euclidean x1 x2 w m n window costs = Some out →
  weighted_euclidean x1' x2' w' m n window costs' = Some out' →
  (∀ a k, 1 ≤ a ≤ I → 0 ≤ k < n → entry x1 n a k = entry x1' n a k) →
  (∀ b k, 1 ≤ b ≤ J → 0 ≤ k < n → entry x2 n b k = entry x2' n b k) →
  (∀ a, 1 ≤ a ≤ Z.max I J → entry w 1 a 0 = entry w' 1 a 0) →
  (∀ a b, 0 ≤ a ≤ I → 0 ≤ b ≤ J → evaluated m window a b = false →
     entry costs m a b = entry costs' m a b) →
  ∀ a b, 0 ≤ a ≤ I → 0 ≤ b ≤ J → a < m → b < m →
    entry out m a b = entry out' m a b.
Proof.
  intros Hwf Hwf' Hrun Hrun' Hx1 Hx2 Hw Hcosts.
  destruct (kernel_spec x1 x2 w costs m n window Hwf) as (c & Hc & _ & Hrec & Hframe).
  rewrite Hrun in Hc. injection Hc as <-.
  destruct (kernel_spec x1' x2' w' costs' m n window Hwf')
    as (c & Hc & _ & Hrec' & Hframe').
  rewrite Hrun' in Hc. injection Hc as <-.
  assert (Hall : ∀ k a b, a + b < Z.of_nat k →
            0 ≤ a ≤ I → 0 ≤ b ≤ J → a < m → b < m →
            entry out m a b = entry out' m a b).
  { induction k as [|k IH]; intros a b Hk Ha Hb Ham Hbm; [lia|].
    destruct (evaluated m window a b) eqn:Hev.
    - pose proof (evaluated_interior _ _ _ _ Hev) as [Ha1 Hb1].
      rewrite Hrec, Hrec' by done.
      rewrite (spec_local_cost_ext x1 x2 w x1' x2' w' n a b);
        [|intros; apply Hx1; lia|intros; apply Hx2; lia|apply Hw; lia..].
      by rewrite (IH a (b - 1)), (IH (a - 1) b), (IH (a - 1) (b - 1)) by lia.
    - rewrite Hframe, Hframe' by (done || lia). by apply Hcosts. }
  intros a b Ha Hb Ham Hbm. apply (Hall (Z.to_nat (a + b + 1))); lia.
Qed.

(** X1. The result at a cell depends only on prefixes of the inputs: two
    calls with the same m, n and window whose X1 agree on rows 1..i, whose
    X2 agree on rows 1..j, whose W agree on indices 1..max(i, j) and whose
    cost matrices agree on the unevaluated cells of rows 0..i and columns
    0..j produce the same C(i, j). *)
Theorem cell_depends_on_prefixes (x1 x2 w costs x1' x2' w' costs' : list F)
    m n window i j :
  well_formed x1 x2 w costs m n → well_formed x1' x2' w' costs' m n →
  0 ≤ i < m → 0 ≤ j < m →
  (∀ a k, 1 ≤ a ≤ i → 0 ≤ k < n → entry x1 n a k = entry x1' n a k) →
  (∀ b k, 1 ≤ b ≤ j → 0 ≤ k < n → entry x2 n b k = entry x2' n b k) →
  (∀ a, 1 ≤ a ≤ Z.max i j → entry w 1 a 0 = entry w' 1 a 0) →
  (∀ a b, 0 ≤ a ≤ i → 0 ≤ b ≤ j → evaluated m window a b = false →
     entry costs m a b = entry costs' m a b) →
  ∃ out out',
    weighted_euclidean x1 x2 w m n window costs = Some out ∧
    weighted_euclidean x1' x2' w' m n window costs' = Some out' ∧
    entry out m i j = entry out' m i j.
Proof.
  intros Hwf Hwf' Hi Hj Hx1 Hx2 Hw Hcosts.
  destruct (kernel_spec x1 x2 w costs m n window Hwf) as (out & Hrun & _).
  destruct (kernel_spec x1' x2' w' costs' m n window Hwf') as (out' & Hrun' & _).
  exists out, out'. split_and!; [done..|].
  eapply (cone_agree x1 x2 w costs x1' x2' w' costs' out out' m n window i j);
    (done || lia).
Qed.

Lemma same_outside_band (x1 x2 w costs costs' : list F) m n window :
  well_formed x1 x2 w costs m n → length costs' = length costs →
  (∀ a b, 0 ≤ a < m → 0 ≤ b < m → evaluated m window a b = false →
     entry costs m a b = entry costs' m a b) →
  weighted_euclidean x1 x2 w m n window costs =
  weighted_euclidean x1 x2 w m n window costs'.
Proof.
  intros Hwf Hlen Hsame.
  assert (Hwf' : well_formed x1 x2 w costs' m n).
  { destruct Hwf. constructor; congruence. }
  destruct (kernel_spec x1 x2 w costs m n window Hwf) as (out & Hrun & Hl & _).
  destruct (kernel_spec x1 x2 w costs' m n window Hwf') as (out' & Hrun' & Hl' & _).
  rewrite Hrun, Hrun'. f_equal.
  assert (Hm : 1 ≤ m) by apply Hwf.
  apply (matrix_eq out out' m); [lia| | |].
  - rewrite Hl. apply Hwf.
  - rewrite Hl'. apply Hwf'.
  - intros i j Hi Hj.
    eapply (cone_agree x1 x2 w costs x1 x2 w costs' out out' m n window
              (m - 1) (m - 1)); try done; try lia.
    intros a b Ha Hb. apply Hsame; lia.
Qed.

(** X2. The kernel never reads what the caller left in the cells it
    evaluates: two cost matrices of the same size that agree on every
    unevaluated cell give the same output matrix. *)
Theorem evaluated_cells_need_no_initialisation (x1 x2 w costs costs' : list F)
    m n window :
  well_formed x1 x2 w costs m n → length costs' = length costs →
  (∀ a b, 0 ≤ a < m → 0 ≤ b < m → evaluated m window a b = false →
     entry costs m a b = entry costs' m a b) →
  weighted_euclidean x1 x2 w m n window costs =
  weighted_euclidean x1 x2 w m n window costs'.
Proof. apply same_outside_band. Qed.

(** X3. Running the kernel again on its own output changes nothing. *)
Theorem kernel_idempotent (x1 x2 w costs out : list F) m n window :
  well_formed x1 x2 w costs m n →
  weighted_euclidean x1 x2 w m n window costs = Some out →
  weighted_euclidean x1 x2 w m n window out = Some out.
Proof.
  intros Hwf Hrun.
  destruct (kernel_spec x1 x2 w costs m n window Hwf)
    as (c & Hc & Hlen & _ & Hframe).
  rewrite Hrun in Hc. injection Hc as <-.
  rewrite <- Hrun. symmetry. apply same_outside_band; [done..|].
  intros a b Ha Hb Hev. symmetry. by apply Hframe.
Qed.
End Dependence.

(** *** The band for large windows *)

Section Windows.
Context {F : Type} `{FloatOps F}.
Implicit Types (costs : list F) (i j m n window : Z).

Lemma full_band_evaluated m window i j :
  1 ≤ m → m - 1 ≤ window → m - 1 + window ≤ Int32.max_int →
  evaluated m window i j = true ↔ 1 ≤ i < m ∧ 1 ≤ j < m.
Proof.
  intros Hm Hw Hsum. split; [apply evaluated_interior|]. intros [Hi Hj].
  apply evaluated_true. split; [done|].
  destruct (band_exact m window i) as [-> ->]; [int_lia..|]. lia.
Qed.

(** X4. A window of m - 1 already covers the matrix: for every window
    from m - 1 up to INT_MAX - m + 1 the kernel evaluates exactly the cells
    with 1 <= i < m and 1 <= j < m, and all these windows give the same
    output. *)
Theorem window_from_m_minus_1 (x1 x2 : list F) w costs m n window window' :
  1 ≤ m →
  m - 1 ≤ window → m - 1 + window ≤ Int32.max_int →
  m - 1 ≤ window' → m - 1 + window' ≤ Int32.max_int →
  (∀ i j, evaluated m window i j = true ↔ 1 ≤ i < m ∧ 1 ≤ j < m) ∧
  weighted_euclidean x1 x2 w m n window costs =
  weighted_euclidean x1 x2 w m n window' costs.
Proof.
  intros Hm Hw Hsum Hw' Hsum'. split.
  { intros i j. by apply full_band_evaluated. }
  rewrite !kernel_cells. f_equal. apply cells_ext. intros i Hi.
  destruct (band_exact m window i) as [-> ->]; [int_lia..|].
  destruct (band_exact m window' i) as [-> ->]; [int_lia..|].
  lia.
Qed.

Lemma overflowing_row_empty m window i :
  1 ≤ i ≤ Int32.max_int → 0 ≤ window ≤ Int32.max_int →
  Int32.max_int < i + window →
  band_hi m window i < 1.
Proof.
  intros Hi Hw Hsum. unfold band_hi, Int32.add.
  rewrite wrap_above by int_lia. int_lia.
Qed.

(** X5. A row whose [i + window] exceeds INT_MAX is skipped: for a window
    in [0, INT_MAX] every cell of such a row keeps the caller's value. *)
Theorem overflowing_rows_untouched (x1 x2 : list F) w costs m n window :
  well_formed x1 x2 w costs m n → 0 ≤ window ≤ Int32.max_int →
  ∃ out,
    weighted_euclidean x1 x2 w m n window costs = Some out ∧
    ∀ i j, 0 ≤ i < m → 0 ≤ j < m → Int32.max_int < i + window →
      entry out m i j = entry costs m i j.
Proof.
  intros Hwf Hw.
  destruct (kernel_spec x1 x2 w costs m n window Hwf)
    as (out & Hrun & _ & _ & Hframe).
  exists out. split; [done|]. intros i j Hi Hj Hsum.
  apply Hframe; [done..|].
  destruct (evaluated m window i j) eqn:Hev; [|done].
  pose proof (evaluated_interior _ _ _ _ Hev) as [Hi1 Hj1].
  apply evaluated_true in Hev as [_ Hev].
  destruct Hwf as [Hm _ _ _ _ _].
  pose proof (overflowing_row_empty m window i
                ltac:(int_lia) ltac:(int_lia) ltac:(int_lia)).
  pose proof (band_lo_ge window i). lia.
Qed.

(** X6. With window = INT_MAX every row overflows: the kernel touches no
    buffer and returns the cost matrix it was given, for every m. *)
Theorem window_int_max_untouched (x1 x2 : list F) w costs m n :
  1 ≤ m ≤ Int32.max_int →
  weighted_euclidean x1 x2 w m n Int32.max_int costs = Some costs.
Proof.
  intros Hm. apply empty_band_untouched. intros i Hi.
  pose proof (overflowing_row_empty m Int32.max_int i
                ltac:(int_lia) ltac:(int_lia) ltac:(int_lia)).
  pose proof (band_lo_ge Int32.max_int i). lia.
Qed.
End Windows.

(** *** Comparison, minimum and NaN in binary32 *)

Section Binary32Order.
Implicit Types (x y z : float).

(* Case analysis on every comparison of exponents and mantissas in the
   goal. *)
Local Ltac compare_cases :=
  repeat match goal with
    | |- context [Z.compare ?a ?b] => destruct (Z.compare_spec a b)
    | |- context [Pos.compare_cont Eq ?a ?b] =>
        change (Pos.compare_cont Eq a b) with (Pos.compare a b);
        destruct (Pos.compare_spec a b)
    end;
  simpl; try done; try lia.


Lemma SFltb_SFleb x y : SFltb x y = true → SFleb x y = true.
Proof. unfold SFltb, SFleb. by destruct (SFcompare x y) as [[]|]. Qed.

(** On numbers the comparison is total. *)
Lemma SFltb_false_SFleb x y :
  is_nan x = false → is_nan y = false → SFltb y x = false → SFleb x y = true.
Proof.
  destruct x as [sx|sx| |sx mx ex], y as [sy|sy| |sy my ey]; try done;
    unfold SFltb, SFleb, SFcompare; intros _ _;
    try (by destruct sx); try (by destruct sy); try (by destruct sx, sy).
  destruct sx, sy; try done; compare_cases.
Qed.

Lemma SFleb_trans x y z : SFleb x y = true → SFleb y z = true → SFleb x z = true.
Proof.
  destruct x as [sx|sx| |sx mx ex], y as [sy|sy| |sy my ey],
    z as [sz|sz| |sz mz ez]; try done;
    unfold SFleb, SFcompare;
    try (by destruct sx); try (by destruct sy); try (by destruct sz);
    try (by destruct sx, sy); try (by destruct sx, sz); try (by destruct sy, sz);
    try (by destruct sx, sy, sz).
  destruct sx, sy, sz; try done; compare_cases.
Qed.

Lemma fmin_nan_l y : fmin S754_nan y = S754_nan.
Proof. unfold fmin. simpl. by destruct y. Qed.

Lemma fmin_nan_r x : fmin x S754_nan = x.
Proof. reflexivity. Qed.

Lemma fmin_not_nan x y :
  is_nan x = false → is_nan y = false → is_nan (fmin x y) = false.
Proof. intros. by destruct (fmin_cases x y) as [-> | ->]. Qed.

Lemma fmin_le x y :
  is_nan x = false → is_nan y = false →
  SFleb (fmin x y) x = true ∧ SFleb (fmin x y) y = true.
Proof.
  intros Hx Hy. unfold fmin. simpl. destruct (SFltb y x) eqn:Hlt.
  - split; [by apply SFltb_SFleb|by apply SFleb_refl].
  - split; [by apply SFleb_refl|by apply SFltb_false_SFleb].
Qed.
End Binary32Order.

(** *** The minimum the kernel adds *)

Section Binary32Minimum.
Implicit Types (w costs : list float) (i j m n window : Z).

Lemma is_nan_true (x : float) : is_nan x = true → x = S754_nan.
Proof. by destruct x. Qed.

Lemma add_nan_r (x : float) : SFadd prec emax x S754_nan = S754_nan.
Proof. by destruct x. Qed.

(** X7. When none of the three predecessors of an evaluated cell is NaN,
    the cell holds its local cost plus one of them, and that one is below
    or equal to all three. *)
Theorem minimum_of_predecessors (x1 x2 : list float) w costs m n window :
  well_formed x1 x2 w costs m n →
  ∃ out,
    weighted_euclidean x1 x2 w m n window costs = Some out ∧
    ∀ i j, evaluated m window i j = true →
      is_nan (entry out m i (j - 1)) = false →
      is_nan (entry out m (i - 1) j) = false →
      is_nan (entry out m (i - 1) (j - 1)) = false →
      ∃ r,
        entry out m i j = fadd (spec_local_cost x1 x2 w n i j) r ∧
        (r = entry out m i (j - 1) ∨ r = entry out m (i - 1) j
         ∨ r = entry out m (i - 1) (j - 1)) ∧
        SFleb r (entry out m i (j - 1)) = true ∧
        SFleb r (entry out m (i - 1) j) = true ∧
        SFleb r (entry out m (i - 1) (j - 1)) = true.
Proof.
  intros Hwf.
  destruct (kernel_spec x1 x2 w costs m n window Hwf) as (out & Hrun & _ & Hrec & _).
  exists out. split; [done|]. intros i j Hev Hl Hu Hd.
  set (l := entry out m i (j - 1)) in *. set (u := entry out m (i - 1) j) in *.
  set (d := entry out m (i - 1) (j - 1)) in *.
  exists (fmin l (fmin u d)). split; [by apply Hrec|].
  pose proof (fmin_not_nan u d Hu Hd) as Hud.
  destruct (fmin_le u d Hu Hd) as [Hle_u Hle_d].
  destruct (fmin_le l (fmin u d) Hl Hud) as [Hle_l Hle_ud].
  split_and!; [|done|by eapply SFleb_trans..].
  destruct (fmin_cases l (fmin u d)) as [-> | ->]; [by left|].
  destruct (fmin_cases u d) as [-> | ->]; auto.
Qed.

(** X8. [std::min] does not treat NaN alike in its two arguments.  A NaN
    in C(i, j-1) makes the cell NaN; a NaN in C(i-1, j) makes the kernel
    take C(i, j-1) without looking at C(i-1, j-1); a NaN in C(i-1, j-1) is
    ignored. *)
Theorem nan_predecessors (x1 x2 : list float) w costs m n window :
  well_formed x1 x2 w costs m n →
  ∃ out,
    weighted_euclidean x1 x2 w m n window costs = Some out ∧
    ∀ i j, evaluated m window i j = true →
      (is_nan (entry out m i (j - 1)) = true →
       is_nan (entry out m i j) = true) ∧
      (is_nan (entry out m (i - 1) j) = true →
       entry out m i j =
         fadd (spec_local_cost x1 x2 w n i j) (entry out m i (j - 1))) ∧
      (is_nan (entry out m (i - 1) (j - 1)) = true →
       entry out m i j =
         fadd (spec_local_cost x1 x2 w n i j)
           (fmin (entry out m i (j - 1)) (entry out m (i - 1) j))).
Proof.
  intros Hwf.
  destruct (kernel_spec x1 x2 w costs m n window Hwf) as (out & Hrun & _ & Hrec & _).
  exists out. split; [done|]. intros i j Hev. rewrite (Hrec i j Hev).
  split_and!; intros Hnan%is_nan_true; rewrite Hnan.
  - rewrite fmin_nan_l. simpl. by rewrite add_nan_r.
  - by rewrite fmin_nan_l, fmin_nan_r.
  - by rewrite fmin_nan_r.
Qed.
End Binary32Minimum.

(** *** Local costs that vanish, and their signs *)

Section Binary32LocalCost.
Implicit Types (w costs : list float) (i j m n window : Z).







Lemma coeff_entry (buf : list float) rows cols i j v :
  coeff buf rows cols i j = Some v → entry buf cols i j = v.
Proof.
  unfold coeff, entry. destruct (in_extent rows cols i j); [|done].
  by intros ->.
Qed.

Lemma same_sign_refl (x : float) : same_sign x x = true.
Proof. destruct x as [[]|[]| |[] mx ex]; done. Qed.

Lemma mul_same_sign (x y : float) :
  same_sign x y = true → not_negative (SFmul prec emax x y) = true.
Proof.
  destruct x as [[]|[]| |[] mx ex], y as [[]|[]| |[] my ey];
    try done; intros _; apply round_aux_not_negative.
Qed.

(** X10. Whatever the sign of W[i], the local cost of a diagonal cell
    (i, i) is never negative: it is at least 0, +∞ or NaN. *)
Theorem diagonal_local_cost_not_negative (x1 x2 : list float) w m n i v :
  local_cost x1 x2 w m n i i = Some v → not_negative v = true.
Proof.
  unfold local_cost.
  destruct (row x1 m n i) as [xi|], (row x2 m n i) as [xj|],
    (coeff w m 1 i 0) as [wi|]; simpl; try done.
  intros [= <-]. apply mul_not_negative; [|apply sqrt_not_negative].
  apply mul_same_sign, same_sign_refl.
Qed.

Lemma spec_local_cost_same_sign (x1 x2 w : list float) n i j :
  same_sign (entry w 1 i 0) (entry w 1 j 0) = true →
  not_negative (spec_local_cost x1 x2 w n i j) = true.
Proof.
  intros Hsign. unfold spec_local_cost.
  apply mul_not_negative; [by apply mul_same_sign|apply sqrt_not_negative].
Qed.

(** X11. If no boundary value the recurrence reads is negative and the two
    weights of every evaluated cell have the same sign (all weights >= 0, or
    all <= 0), then no evaluated cell is negative. *)
Theorem same_sign_weights_not_negative (x1 x2 : list float) w costs m n window :
  well_formed x1 x2 w costs m n →
  (∀ a b, boundary_read m window a b = true →
     not_negative (entry costs m a b) = true) →
  (∀ i j, evaluated m window i j = true →
     same_sign (entry w 1 i 0) (entry w 1 j 0) = true) →
  ∃ out,
    weighted_euclidean x1 x2 w m n window costs = Some out ∧
    ∀ i j, evaluated m window i j = true →
      not_negative (entry out m i j) = true.
Proof.
  intros Hwf Hboundary Hweights.
  destruct (kernel_spec x1 x2 w costs m n window Hwf) as (out & Hrun & _).
  exists out. split; [done|].
  apply (invariant_on_evaluated (λ v, not_negative v = true)
           x1 x2 w costs out m n window); [|done..|].
  - apply add_not_negative.
  - intros i j Hev. by apply spec_local_cost_same_sign, Hweights.
Qed.
End Binary32LocalCost.

(** *** What a successful run says about the buffers *)

Section Accesses.
Context {F : Type} `{FloatOps F}.
Implicit Types (w costs : list F) (i j m n window : Z).

Lemma for_each_steps {A S} (body : A → S → option S) (Inv : S → Prop) l s s' :
  (∀ a s0 s1, Inv s0 → body a s0 = Some s1 → Inv s1) →
  Inv s → for_each body l s = Some s' →
  ∀ a, a ∈ l → ∃ s0 s1, Inv s0 ∧ body a s0 = Some s1.
Proof.
  intros Hstep. revert s. induction l as [|b l IH]; intros s Hs Hrun a Ha.
  { inversion Ha. }
  simpl in Hrun. destruct (body b s) as [s1|] eqn:Hb; [|done]. simpl in Hrun.
  apply elem_of_cons in Ha as [-> | Ha]; [by exists s, s1|].
  eapply IH; [|done..]. by eapply Hstep.
Qed.

Lemma coeff_lt (buf : list F) rows cols i j :
  is_Some (coeff buf rows cols i j) → (offset cols i j < length buf)%nat.
Proof.
  unfold coeff. destruct (in_extent rows cols i j); [|by intros [? ?]].
  apply lookup_lt_is_Some_1.
Qed.

Lemma row_lt (buf : list F) rows cols i k :
  is_Some (row buf rows cols i) → 0 ≤ k < cols →
  (offset cols i k < length buf)%nat.
Proof.
  intros Hrow%mapM_is_Some_1 Hk. rewrite Forall_seqZ in Hrow.
  apply (coeff_lt buf rows). apply Hrow. lia.
Qed.

Lemma cell_update_length (x1 x2 : list F) w m n i j costs costs' :
  cell_update x1 x2 w m n i j costs = Some costs' →
  length costs' = length costs ∧ (offset m i j < length costs)%nat.
Proof.
  unfold cell_update, coeff_set.
  destruct (local_cost x1 x2 w m n i j); simpl; [|done].
  destruct (coeff costs m m i (j - 1)); simpl; [|done].
  destruct (coeff costs m m (i - 1) j); simpl; [|done].
  destruct (coeff costs m m (i - 1) (j - 1)); simpl; [|done].
  destruct (in_extent m m i j); simpl; [|done].
  case_bool_decide; [|done]. intros [= <-]. by rewrite length_insert.
Qed.

(** X12. The kernel checks nothing, so a run that stays inside the buffers
    tells their sizes: whenever the kernel returns, for every evaluated
    cell (i, j) the weight buffer reaches indices i and j, the cost buffer
    reaches the offset of (i, j), and X1 and X2 reach every coefficient of
    row i and of row j. *)
Theorem run_covers_evaluated_cells (x1 x2 : list F) w costs out m n window :
  weighted_euclidean x1 x2 w m n window costs = Some out →
  ∀ i j, evaluated m window i j = true →
    (Z.to_nat i < length w)%nat ∧ (Z.to_nat j < length w)%nat ∧
    (offset m i j < length costs)%nat ∧
    ∀ k, 0 ≤ k < n →
      (offset n i k < length x1)%nat ∧ (offset n j k < length x2)%nat.
Proof.
  rewrite kernel_cells. intros Hrun i j Hev%elem_of_cells.
  destruct (for_each_steps (λ c, cell_update x1 x2 w m n c.1 c.2)
              (λ s, length s = length costs) _ _ _
              ltac:(intros c s0 s1 Hs0 Hc%cell_update_length; destruct Hc; congruence)
              eq_refl Hrun (i, j) Hev) as (s0 & s1 & Hlen & Hstep).
  simpl in Hstep. pose proof (cell_update_length _ _ _ _ _ _ _ _ _ Hstep) as [_ Hoff].
  unfold cell_update in Hstep.
  destruct (local_cost x1 x2 w m n i j) as [cost|] eqn:Hcost; [|done].
  clear Hstep. unfold local_cost in Hcost.
  destruct (row x1 m n i) as [xi|] eqn:Hxi; [|done]. simpl in Hcost.
  destruct (row x2 m n j) as [xj|] eqn:Hxj; [|done]. simpl in Hcost.
  destruct (coeff w m 1 i 0) as [wi|] eqn:Hwi; [|done]. simpl in Hcost.
  destruct (coeff w m 1 j 0) as [wj|] eqn:Hwj; [|done].
  pose proof (coeff_lt w m 1 i 0 ltac:(by rewrite Hwi)) as Hi.
  pose proof (coeff_lt w m 1 j 0 ltac:(by rewrite Hwj)) as Hj.
  unfold offset in Hi, Hj. rewrite Z.mul_1_r, Z.add_0_r in Hi, Hj.
  split_and!; [done|done|congruence|]. intros k Hk. split.
  - apply (row_lt x1 m); [by rewrite Hxi|done].
  - apply (row_lt x2 m); [by rewrite Hxj|done].
Qed.
End Accesses.

(** *** The band, exactly *)

Section BandExact.
Implicit Types (i j m window : Z).

(** X13. Without overflow the kernel evaluates exactly the interior
    cells of the half-open band: for 0 <= window and
    m - 1 + window <= INT_MAX, cell (i, j) is visited if and only if
    1 <= i < m, 1 <= j < m and i - window <= j < i + window. *)
Theorem band_cells_exact m window :
  1 ≤ m → 0 ≤ window → m - 1 + window ≤ Int32.max_int →
  ∀ i j, evaluated m window i j = true ↔
    1 ≤ i < m ∧ 1 ≤ j < m ∧ i - window ≤ j < i + window.
Proof.
  intros Hm Hw Hsum i j. rewrite evaluated_true. split.
  - intros [Hi Hj].
    destruct (band_exact m window i) as [Hlo Hhi]; [int_lia..|].
    rewrite Hlo, Hhi in Hj. lia.
  - intros (Hi & Hj & Hband).
    destruct (band_exact m window i) as [-> ->]; [int_lia..|]. lia.
Qed.
End BandExact.

(** *** The usual boundary: +∞ in row 0 and column 0 *)

Section Binary32Boundary.
Implicit Types (w costs : list float) (i j m n window : Z).

Lemma fmin_inf_r (x : float) : fmin x (S754_infinity false) = x.
Proof. unfold fmin. simpl. by destruct x as [[]|[]| |[] mx ex]. Qed.

Lemma fmin_inf_l (x : float) :
  is_nan x = false → fmin (S754_infinity false) x = x.
Proof. unfold fmin. simpl. by destruct x as [[]|[]| |[] mx ex]. Qed.

(** X14. With +∞ in column 0, an evaluated cell of column 1 can only be
    reached from above: it holds its local cost plus C(i-1, 1), unless
    that is NaN.  With +∞ in row 0, an evaluated cell of row 1 holds its
    local cost plus C(1, j-1). *)
Theorem infinite_boundary_first_row_and_column
    (x1 x2 : list float) w costs m n window :
  well_formed x1 x2 w costs m n →
  ∃ out,
    weighted_euclidean x1 x2 w m n window costs = Some out ∧
    (∀ i, evaluated m window i 1 = true →
       entry costs m i 0 = S754_infinity false →
       entry costs m (i - 1) 0 = S754_infinity false →
       is_nan (entry out m (i - 1) 1) = false →
       entry out m i 1 =
         fadd (spec_local_cost x1 x2 w n i 1) (entry out m (i - 1) 1)) ∧
    (∀ j, evaluated m window 1 j = true →
       entry costs m 0 j = S754_infinity false →
       entry costs m 0 (j - 1) = S754_infinity false →
       entry out m 1 j =
         fadd (spec_local_cost x1 x2 w n 1 j) (entry out m 1 (j - 1))).
Proof.
  intros Hwf.
  destruct (kernel_spec x1 x2 w costs m n window Hwf)
    as (out & Hrun & _ & Hrec & Hframe).
  assert (Hnever : ∀ a b, a < 1 ∨ b < 1 → evaluated m window a b = false).
  { intros a b Hab. destruct (evaluated m window a b) eqn:Hev; [|done].
    apply evaluated_interior in Hev. lia. }
  exists out. split_and!; [done| |].
  - intros i Hev Hleft Hdiag Hup.
    pose proof (evaluated_interior _ _ _ _ Hev) as [Hi _].
    rewrite (Hrec i 1 Hev). change (1 - 1) with 0.
    rewrite !(Hframe _ 0) by (lia || apply Hnever; lia).
    rewrite Hleft, Hdiag, fmin_inf_r. by rewrite fmin_inf_l.
  - intros j Hev Hup Hdiag.
    pose proof (evaluated_interior _ _ _ _ Hev) as [_ Hj].
    rewrite (Hrec 1 j Hev). change (1 - 1) with 0.
    rewrite !(Hframe 0) by (lia || apply Hnever; lia).
    by rewrite Hup, Hdiag, !fmin_inf_r.
Qed.
End Binary32Boundary.

(** *** The further properties at concrete inputs *)

Section FurtherWitnesses.
Import Inputs.

Local Ltac extents :=
  constructor; [int_lia..|reflexivity|reflexivity|reflexivity|reflexivity].

(* Every value of an index between 0 and 2. *)
Local Ltac upto2 a :=
  let Ha := fresh in
  assert (a = 0 ∨ a = 1 ∨ a = 2) as Ha by lia; destruct Ha as [-> | [-> | ->]].

Lemma cell_depends_on_prefixes_witness :
  ∃ out out',
    weighted_euclidean seq012 seq012 (ones 3) 3 1 3 sevens = Some out ∧
    weighted_euclidean (of_Z <$> [4; 1; 9]) (of_Z <$> [3; 1; 8])
      (of_Z <$> [6; 1; 5]) 3 1 3
      (scenario_costs (of_Z 2) (of_Z 3) (of_Z 4) (of_Z 5)) = Some out' ∧
    entry out 3 1 1 = entry out' 3 1 1.
Proof.
  apply cell_depends_on_prefixes; [extents|extents|lia|lia|..].
  - intros a k Ha Hk. assert (a = 1) as -> by lia. by assert (k = 0) as -> by lia.
  - intros b k Hb Hk. assert (b = 1) as -> by lia. by assert (k = 0) as -> by lia.
  - intros a Ha. by assert (a = 1) as -> by lia.
  - intros a b Ha Hb. upto2 a; upto2 b; try lia; by vm_compute.
Defined.

Lemma evaluated_cells_need_no_initialisation_witness :
  weighted_euclidean seq012 seq012 (ones 3) 3 1 3 sevens =
  weighted_euclidean seq012 seq012 (ones 3) 3 1 3
    (scenario_costs (of_Z 2) (of_Z 3) (of_Z 4) (of_Z 5)).
Proof.
  apply evaluated_cells_need_no_initialisation; [extents|reflexivity|].
  intros a b Ha Hb. upto2 a; upto2 b; by vm_compute.
Defined.

Lemma kernel_idempotent_witness :
  weighted_euclidean seq012 seq012 (ones 3) 3 1 1
    (of_Z <$> [0; 1000000000; 1000000000;
               1000000000; 0; 7;
               1000000000; 1; 0])
  = Some (of_Z <$> [0; 1000000000; 1000000000;
                    1000000000; 0; 7;
                    1000000000; 1; 0]).
Proof.
  apply (kernel_idempotent seq012 seq012 (ones 3) sevens); [extents|].
  vm_compute. reflexivity.
Defined.

Lemma window_from_m_minus_1_witness :
  (∀ i j, evaluated 3 2 i j = true ↔ 1 ≤ i < 3 ∧ 1 ≤ j < 3) ∧
  weighted_euclidean seq012 seq012 (ones 3) 3 1 2 sevens =
  weighted_euclidean seq012 seq012 (ones 3) 3 1 1000 sevens.
Proof. apply window_from_m_minus_1; int_lia. Defined.

Lemma overflowing_rows_untouched_witness :
  ∃ out,
    weighted_euclidean seq012 seq012 (ones 3) 3 1 2147483646 sevens = Some out ∧
    ∀ i j, 0 ≤ i < 3 → 0 ≤ j < 3 → Int32.max_int < i + 2147483646 →
      entry out 3 i j = entry sevens 3 i j.
Proof. apply overflowing_rows_untouched; [extents|int_lia]. Defined.

Lemma window_int_max_untouched_witness :
  weighted_euclidean seq012 seq012 (ones 3) 3 1 Int32.max_int sevens = Some sevens.
Proof. apply window_int_max_untouched. int_lia. Defined.

Lemma minimum_of_predecessors_witness :
  ∃ out,
    weighted_euclidean seq012 seq012 (ones 3) 3 1 3 sevens = Some out ∧
    ∀ i j, evaluated 3 3 i j = true →
      is_nan (entry out 3 i (j - 1)) = false →
      is_nan (entry out 3 (i - 1) j) = false →
      is_nan (entry out 3 (i - 1) (j - 1)) = false →
      ∃ r,
        entry out 3 i j = fadd (spec_local_cost seq012 seq012 (ones 3) 1 i j) r ∧
        (r = entry out 3 i (j - 1) ∨ r = entry out 3 (i - 1) j
         ∨ r = entry out 3 (i - 1) (j - 1)) ∧
        SFleb r (entry out 3 i (j - 1)) = true ∧
        SFleb r (entry out 3 (i - 1) j) = true ∧
        SFleb r (entry out 3 (i - 1) (j - 1)) = true.
Proof. apply minimum_of_predecessors. extents. Defined.

Lemma nan_predecessors_witness :
  ∃ out,
    weighted_euclidean (zeros 2) (zeros 2) (ones 2) 2 1 1
      [of_Z 1; S754_nan; of_Z 5; of_Z 0] = Some out ∧
    ∀ i j, evaluated 2 1 i j = true →
      (is_nan (entry out 2 i (j - 1)) = true →
       is_nan (entry out 2 i j) = true) ∧
      (is_nan (entry out 2 (i - 1) j) = true →
       entry out 2 i j =
         fadd (spec_local_cost (zeros 2) (zeros 2) (ones 2) 1 i j)
           (entry out 2 i (j - 1))) ∧
      (is_nan (entry out 2 (i - 1) (j - 1)) = true →
       entry out 2 i j =
         fadd (spec_local_cost (zeros 2) (zeros 2) (ones 2) 1 i j)
           (fmin (entry out 2 i (j - 1)) (entry out 2 (i - 1) j))).
Proof. apply nan_predecessors. extents. Defined.


Lemma diagonal_local_cost_not_negative_witness :
  local_cost seq012 (zeros 3) signed_weights 3 1 1 1 = Some (of_Z 1) ∧
  not_negative (of_Z 1) = true.
Proof.
  assert (Hcost : local_cost seq012 (zeros 3) signed_weights 3 1 1 1 = Some (of_Z 1))
    by (vm_compute; reflexivity).
  split; [exact Hcost|].
  exact (diagonal_local_cost_not_negative _ _ _ _ _ _ _ Hcost).
Defined.

Lemma same_sign_weights_not_negative_witness :
  ∃ out,
    weighted_euclidean seq012 (zeros 3) (of_Z <$> [-1; -2; -3]) 3 1 3 sevens
      = Some out ∧
    ∀ i j, evaluated 3 3 i j = true → not_negative (entry out 3 i j) = true.
Proof.
  apply same_sign_weights_not_negative; [extents|..].
  - intros a b _. apply entry_Forall; [reflexivity|]. repeat constructor.
  - intros i j Hev. apply evaluated_interior in Hev as [Hi Hj].
    assert (i = 1 ∨ i = 2) as [-> | ->] by lia;
      assert (j = 1 ∨ j = 2) as [-> | ->] by lia; reflexivity.
Defined.

Lemma run_covers_evaluated_cells_witness :
  weighted_euclidean seq012 seq012 (ones 3) 3 1 3 sevens
    = Some (of_Z <$> [0; 1000000000; 1000000000;
                      1000000000; 0; 1;
                      1000000000; 1; 0]) ∧
  ∀ i j, evaluated 3 3 i j = true →
    (Z.to_nat i < length (ones 3))%nat ∧ (Z.to_nat j < length (ones 3))%nat ∧
    (offset 3 i j < length sevens)%nat ∧
    ∀ k, 0 ≤ k < 1 →
      (offset 1 i k < length seq012)%nat ∧ (offset 1 j k < length seq012)%nat.
Proof.
  assert (Hrun : weighted_euclidean seq012 seq012 (ones 3) 3 1 3 sevens
                 = Some (of_Z <$> [0; 1000000000; 1000000000;
                                   1000000000; 0; 1;
                                   1000000000; 1; 0]))
    by (vm_compute; reflexivity).
  split; [exact Hrun|]. exact (run_covers_evaluated_cells _ _ _ _ _ _ _ _ Hrun).
Defined.

Lemma band_cells_exact_witness :
  evaluated 5 2 3 1 = true ↔ 1 ≤ 3 < 5 ∧ 1 ≤ 1 < 5 ∧ 3 - 2 ≤ 1 < 3 + 2.
Proof. apply band_cells_exact; int_lia. Defined.

Lemma infinite_boundary_first_row_and_column_witness :
  ∃ out,
    weighted_euclidean seq012 seq012 (ones 3) 3 1 3
      [ of_Z 0; S754_infinity false; S754_infinity false;
        S754_infinity false; of_Z 7; of_Z 7;
        S754_infinity false; of_Z 7; of_Z 7 ] = Some out ∧
    (∀ i, evaluated 3 3 i 1 = true →
       entry [ of_Z 0; S754_infinity false; S754_infinity false;
               S754_infinity false; of_Z 7; of_Z 7;
               S754_infinity false; of_Z 7; of_Z 7 ] 3 i 0 = S754_infinity false →
       entry [ of_Z 0; S754_infinity false; S754_infinity false;
               S754_infinity false; of_Z 7; of_Z 7;
               S754_infinity false; of_Z 7; of_Z 7 ] 3 (i - 1) 0
         = S754_infinity false →
       is_nan (entry out 3 (i - 1) 1) = false →
       entry out 3 i 1 =
         fadd (spec_local_cost seq012 seq012 (ones 3) 1 i 1)
           (entry out 3 (i - 1) 1)) ∧
    (∀ j, evaluated 3 3 1 j = true →
       entry [ of_Z 0; S754_infinity false; S754_infinity false;
               S754_infinity false; of_Z 7; of_Z 7;
               S754_infinity false; of_Z 7; of_Z 7 ] 3 0 j = S754_infinity false →
       entry [ of_Z 0; S754_infinity false; S754_infinity false;
               S754_infinity false; of_Z 7; of_Z 7;
               S754_infinity false; of_Z 7; of_Z 7 ] 3 0 (j - 1)
         = S754_infinity false →
       entry out 3 1 j =
         fadd (spec_local_cost seq012 seq012 (ones 3) 1 1 j)
           (entry out 3 1 (j - 1))).
Proof. apply infinite_boundary_first_row_and_column. extents. Defined.
End FurtherWitnesses.

(** ** The recurrence and the sign of the result on the stated band *)

Section StatedSum.
Context {F : Type} `{FloatOps F}.
Implicit Types (l : list F) (i j n : Z).



End StatedSum.

Section StatedBand.
Import Inputs.
Implicit Types (w costs : list float) (i j m n window : Z).

Lemma stated_band_evaluated m window i j :
  1 ≤ m ≤ Int32.max_int → 0 ≤ window → m - 1 + window ≤ Int32.max_int →
  in_stated_band m window i j → evaluated m window i j = true.
Proof.
  intros Hm Hw Hsum [Hi Hj]. apply evaluated_true. split; [done|].
  destruct (band_exact m window i) as [-> ->]; [int_lia..|done].
Qed.





(** C4, as amended.  For a window >= 0 with [i + window] in range in every
    row ([m - 1 + window <= INT_MAX]): if every boundary value the
    recurrence can read is finite and non-negative and every weight W[i],
    1 <= i < m, is non-negative, then no cell [(i, j)] with [i] in
    [[1, m)] and [j] in [[max(1, i - window), min(m, i + window))] is
    negative: each is at least 0, +∞ or NaN. *)
Theorem band_cells_not_negative (x1 x2 : list float) w costs m n window :
  well_formed x1 x2 w costs m n →
  0 ≤ window → m - 1 + window ≤ Int32.max_int →
  (∀ a b, boundary_read m window a b = true →
     finite_nonneg (entry costs m a b) = true) →
  (∀ i, 1 ≤ i < m → nonneg (entry w 1 i 0) = true) →
  ∃ out,
    weighted_euclidean x1 x2 w m n window costs = Some out ∧
    ∀ i j, in_stated_band m window i j →
      not_negative (entry out m i j) = true.
Proof.
  intros Hwf Hw Hsum Hboundary Hweights.
  destruct (kernel_spec x1 x2 w costs m n window Hwf) as (out & Hrun & _).
  exists out. split; [done|]. intros i j Hband.
  apply (invariant_on_evaluated (λ v, not_negative v = true)
           x1 x2 w costs out m n window); [|done..| | |].
  - apply add_not_negative.
  - intros a b Hab. by apply finite_nonneg_not_negative, Hboundary.
  - intros a b Hev. apply evaluated_interior in Hev as [Ha Hb].
    apply spec_local_cost_not_negative; by apply nonneg_not_negative, Hweights.
  - apply stated_band_evaluated; [apply Hwf|done..].
Qed.

Local Ltac scenario_extents :=
  constructor; [int_lia..|reflexivity|reflexivity|reflexivity|reflexivity].


Lemma band_cells_not_negative_witness :
  ∃ out,
    weighted_euclidean seq012 seq012 (ones 3) 3 1 3 sevens = Some out ∧
    ∀ i j, in_stated_band 3 3 i j → not_negative (entry out 3 i j) = true.
Proof.
  apply band_cells_not_negative; [scenario_extents|lia|int_lia|..].
  - intros a b _. apply entry_Forall; [reflexivity|].
    repeat constructor.
  - intros i _. apply entry_Forall; [reflexivity|].
    repeat constructor.
Defined.
End StatedBand.
